(** * StringZilla [hash.h]: the serial backend, embedded and checked

    A shallow embedding of the serial implementation of
    [include/stringzilla/hash.h] (byte checksum, AES-round based hash in
    one-shot and streaming form, and the pseudo-random byte generator),
    followed by the properties its specification states about it.

    Conventions of the embedding:
    - [sz_u64_t] and [sz_size_t] are [Z] with the wrap-around modulo [2^64]
      written at every arithmetic operation ([u64]); [sz_u8_t] is [Z] with
      the truncation modulo [256] written at every store ([u8]);
    - a vector union ([sz_u128_vec_t], [sz_u512_vec_t]) is the list of its
      bytes, the [u8s] view; the [u64s] view reads and writes groups of
      eight bytes in little-endian order;
    - a [char const *] argument is the list of the bytes found at the
      pointer; [*text++] takes the head of that list and moves to its tail;
    - a loop whose trip count is not a literal is run by [while], which is
      given fuel and answers [None] when the fuel does not suffice. *)

From Stdlib Require Import ZArith List Lia Bool.
From stdpp Require Import base list.
Import ListNotations.
Local Open Scope Z_scope.

(** ** Machine integers *)

(** Modelled from the spec: the type [sz_u8_t] of [types.h], which is not
    part of the sources at hand, is a byte; converting to it keeps the low
    eight bits. *)
Definition u8 (x : Z) : Z := x mod 256.

(** Modelled from the spec: the types [sz_u64_t] and [sz_size_t] of
    [types.h], which is not part of the sources at hand, are 64 bits wide
    ("a 64-bit cumulative length counter"); their arithmetic wraps modulo
    [2^64]. *)
Definition u64 (x : Z) : Z := x mod 2 ^ 64.

Definition is_u8 (x : Z) : Prop := 0 <= x < 256.
Definition is_u64 (x : Z) : Prop := 0 <= x < 2 ^ 64.

(** Modelled from the spec: the macro [sz_min_of_two] of [types.h], which is
    not part of the sources at hand; the stream operation "appends bytes
    into the input buffer, invoking absorb whenever the buffer fills", so
    the macro selects the smaller of the pending length and the room left. *)
Definition sz_min_of_two (x y : Z) : Z := if x <? y then x else y.

(** ** Loops *)

(** [while fuel cond body s] runs [while (cond) body] from [s]. *)
Fixpoint while {S : Type} (fuel : nat) (cond : S -> bool) (body : S -> S)
    (s : S) : option S :=
  if cond s then
    match fuel with
    | O => None
    | Datatypes.S fuel' => while fuel' cond body (body s)
    end
  else Some s.

(** ** Vectors *)

(** Modelled from the spec: the unions [sz_u128_vec_t] and [sz_u512_vec_t]
    of [types.h], which is not part of the sources at hand: "a packed
    16-byte value; semantically interpreted as two little-endian 64-bit
    lanes for arithmetic and as 16 bytes for shuffle/AES".  A vector is the
    list of its bytes. *)
Definition sz_u128_vec_t : Type := list Z.
Definition sz_u512_vec_t : Type := list Z.

(** The value of a group of bytes read as one little-endian integer. *)
Fixpoint le_decode (bs : list Z) : Z :=
  match bs with
  | [] => 0
  | b :: rest => b + 256 * le_decode rest
  end.

(** The [n] bytes that store [x] in little-endian order. *)
Fixpoint le_encode (n : nat) (x : Z) : list Z :=
  match n with
  | O => []
  | S n' => x mod 256 :: le_encode n' (x / 256)
  end.

(** [v.u8s[i]], read and written. *)
Definition u8s (v : list Z) (i : nat) : Z := nth i v 0.
Definition set_u8s (v : list Z) (i : nat) (x : Z) : list Z := <[i := u8 x]> v.

(** [v.u64s[k]], read and written. *)
Definition u64s (v : list Z) (k : nat) : Z :=
  le_decode (take 8 (drop (8 * k) v)).
Definition set_u64s (v : list Z) (k : nat) (x : Z) : list Z :=
  take (8 * k) v ++ le_encode 8 x ++ drop (8 * k + 8) v.

(** [((sz_u128_vec_t * )&v.u64s[0])[k]], read and written. *)
Definition vecs (v : sz_u512_vec_t) (k : nat) : sz_u128_vec_t :=
  take 16 (drop (16 * k) v).
Definition set_vecs (v : sz_u512_vec_t) (k : nat) (x : sz_u128_vec_t)
    : sz_u512_vec_t :=
  take (16 * k) v ++ take 16 x ++ drop (16 * k + 16) v.

(** A local vector before its first assignment; every use below overwrites
    all of its bytes before reading any. *)
Definition uninitialized (n : nat) : list Z := replicate n 0.

(** [*(sz_u64_t const * )(start + offset)]. *)
Definition load_u64 (start : list Z) (offset : Z) : Z :=
  le_decode (map u8 (take 8 (drop (Z.to_nat offset) start))).

(** Well-formed vectors: [n] bytes, each within [0, 256). *)
Definition bytes_ok (n : nat) (v : list Z) : Prop :=
  length v = n /\ Forall is_u8 v.

(** The same, as a check that computes. *)
Definition bytes_okb (n : nat) (v : list Z) : bool :=
  (length v =? n)%nat && forallb (fun x => (0 <=? x) && (x <? 256)) v.

(** ** The state types *)

Record sz_hash_state_t : Type := {
  aes : sz_u512_vec_t;
  sum : sz_u512_vec_t;
  ins : sz_u512_vec_t;
  key : sz_u128_vec_t;
  ins_length : Z
}.

(** The fields of the minimal state carry a prefix, the fields of the two
    records sharing one name space here. *)
Record _sz_hash_minimal_t : Type := {
  min_aes : sz_u128_vec_t;
  min_sum : sz_u128_vec_t;
  min_key : sz_u128_vec_t
}.

(** ** Helper methods *)

Definition sz_hash_state_equal (lhs rhs : sz_hash_state_t) : bool :=
  let same_aes :=
    (u64s (aes lhs) 0 =? u64s (aes rhs) 0) && (u64s (aes lhs) 1 =? u64s (aes rhs) 1) &&
    (u64s (aes lhs) 2 =? u64s (aes rhs) 2) && (u64s (aes lhs) 3 =? u64s (aes rhs) 3) in
  let same_sum :=
    (u64s (sum lhs) 0 =? u64s (sum rhs) 0) && (u64s (sum lhs) 1 =? u64s (sum rhs) 1) &&
    (u64s (sum lhs) 2 =? u64s (sum rhs) 2) && (u64s (sum lhs) 3 =? u64s (sum rhs) 3) in
  let same_key :=
    (u64s (key lhs) 0 =? u64s (key rhs) 0) && (u64s (key lhs) 1 =? u64s (key rhs) 1) in
  if same_aes && same_sum && same_key then true else false.

(** ** Serial implementation *)

(** [for (; text_u8 != text_end; ++text_u8) bytesum += *text_u8;] the loop
    walks the [length] bytes at [text]. *)
Definition sz_bytesum_serial (text : list Z) (length : Z) : Z :=
  fold_left (fun bytesum text_u8 => u64 (bytesum + u8 text_u8))
            (take (Z.to_nat length) text) 0.

Definition sbox : list Z :=
  [ 0x63; 0x7c; 0x77; 0x7b; 0xf2; 0x6b; 0x6f; 0xc5; 0x30; 0x01; 0x67; 0x2b; 0xfe; 0xd7; 0xab; 0x76;
    0xca; 0x82; 0xc9; 0x7d; 0xfa; 0x59; 0x47; 0xf0; 0xad; 0xd4; 0xa2; 0xaf; 0x9c; 0xa4; 0x72; 0xc0;
    0xb7; 0xfd; 0x93; 0x26; 0x36; 0x3f; 0xf7; 0xcc; 0x34; 0xa5; 0xe5; 0xf1; 0x71; 0xd8; 0x31; 0x15;
    0x04; 0xc7; 0x23; 0xc3; 0x18; 0x96; 0x05; 0x9a; 0x07; 0x12; 0x80; 0xe2; 0xeb; 0x27; 0xb2; 0x75;
    0x09; 0x83; 0x2c; 0x1a; 0x1b; 0x6e; 0x5a; 0xa0; 0x52; 0x3b; 0xd6; 0xb3; 0x29; 0xe3; 0x2f; 0x84;
    0x53; 0xd1; 0x00; 0xed; 0x20; 0xfc; 0xb1; 0x5b; 0x6a; 0xcb; 0xbe; 0x39; 0x4a; 0x4c; 0x58; 0xcf;
    0xd0; 0xef; 0xaa; 0xfb; 0x43; 0x4d; 0x33; 0x85; 0x45; 0xf9; 0x02; 0x7f; 0x50; 0x3c; 0x9f; 0xa8;
    0x51; 0xa3; 0x40; 0x8f; 0x92; 0x9d; 0x38; 0xf5; 0xbc; 0xb6; 0xda; 0x21; 0x10; 0xff; 0xf3; 0xd2;
    0xcd; 0x0c; 0x13; 0xec; 0x5f; 0x97; 0x44; 0x17; 0xc4; 0xa7; 0x7e; 0x3d; 0x64; 0x5d; 0x19; 0x73;
    0x60; 0x81; 0x4f; 0xdc; 0x22; 0x2a; 0x90; 0x88; 0x46; 0xee; 0xb8; 0x14; 0xde; 0x5e; 0x0b; 0xdb;
    0xe0; 0x32; 0x3a; 0x0a; 0x49; 0x06; 0x24; 0x5c; 0xc2; 0xd3; 0xac; 0x62; 0x91; 0x95; 0xe4; 0x79;
    0xe7; 0xc8; 0x37; 0x6d; 0x8d; 0xd5; 0x4e; 0xa9; 0x6c; 0x56; 0xf4; 0xea; 0x65; 0x7a; 0xae; 0x08;
    0xba; 0x78; 0x25; 0x2e; 0x1c; 0xa6; 0xb4; 0xc6; 0xe8; 0xdd; 0x74; 0x1f; 0x4b; 0xbd; 0x8b; 0x8a;
    0x70; 0x3e; 0xb5; 0x66; 0x48; 0x03; 0xf6; 0x0e; 0x61; 0x35; 0x57; 0xb9; 0x86; 0xc1; 0x1d; 0x9e;
    0xe1; 0xf8; 0x98; 0x11; 0x69; 0xd9; 0x8e; 0x94; 0x9b; 0x1e; 0x87; 0xe9; 0xce; 0x55; 0x28; 0xdf;
    0x8c; 0xa1; 0x89; 0x0d; 0xbf; 0xe6; 0x42; 0x68; 0x41; 0x99; 0x2d; 0x0f; 0xb0; 0x54; 0xbb; 0x16 ].

(** [sbox[x]] for an index of type [sz_u8_t]. *)
Definition sbox_at (x : Z) : Z := nth (Z.to_nat (u8 x)) sbox 0.

(** [#define _sz_gf2_double(x) (((x) << 1) ^ ((((x) >> 7) & 1) * 0x1b))],
    computed on the promoted [int]. *)
Definition _sz_gf2_double (x : Z) : Z :=
  Z.lxor (Z.shiftl x 1) (Z.land (Z.shiftr x 7) 1 * 0x1b).

(** [sz_u8_t state_2d[4][4]] is laid out row after row. *)
Definition state_2d_at (state_2d : list Z) (i j : nat) : Z :=
  nth (4 * i + j) state_2d 0.
Definition set_state_2d (state_2d : list Z) (i j : nat) (x : Z) : list Z :=
  <[(4 * i + j)%nat := u8 x]> state_2d.

(** One pass of the [MixColumns] loop, on [state_2d[i]]. *)
Definition mix_columns_step (state_2d : list Z) (i : nat) : list Z :=
  let t := state_2d_at state_2d i 0 in
  let u := u8 (Z.lxor (Z.lxor (Z.lxor (state_2d_at state_2d i 0) (state_2d_at state_2d i 1))
                              (state_2d_at state_2d i 2)) (state_2d_at state_2d i 3)) in
  let state_2d := set_state_2d state_2d i 0
    (Z.lxor (state_2d_at state_2d i 0)
       (Z.lxor u (_sz_gf2_double (Z.lxor (state_2d_at state_2d i 0) (state_2d_at state_2d i 1))))) in
  let state_2d := set_state_2d state_2d i 1
    (Z.lxor (state_2d_at state_2d i 1)
       (Z.lxor u (_sz_gf2_double (Z.lxor (state_2d_at state_2d i 1) (state_2d_at state_2d i 2))))) in
  let state_2d := set_state_2d state_2d i 2
    (Z.lxor (state_2d_at state_2d i 2)
       (Z.lxor u (_sz_gf2_double (Z.lxor (state_2d_at state_2d i 2) (state_2d_at state_2d i 3))))) in
  set_state_2d state_2d i 3
    (Z.lxor (state_2d_at state_2d i 3)
       (Z.lxor u (_sz_gf2_double (Z.lxor (state_2d_at state_2d i 3) t)))).

Definition _sz_emulate_aesenc_si128_serial (state_vec round_key_vec : sz_u128_vec_t)
    : sz_u128_vec_t :=
  (* Combine `ShiftRows` and `SubBytes` *)
  let state_2d :=
    fold_left (fun state_2d i =>
                 set_state_2d state_2d (((i / 4) + 4 - (i mod 4)) mod 4) (i mod 4)
                              (sbox_at (u8s state_vec i)))
              (seq 0 16) (uninitialized 16) in
  (* Perform `MixColumns` using GF2 multiplication by 2 *)
  let state_2d := fold_left mix_columns_step (seq 0 4) state_2d in
  (* `XOR` with the round key on the way out *)
  fold_left (fun result i =>
               set_u8s result i
                 (Z.lxor (state_2d_at state_2d (i / 4) (i mod 4)) (u8s round_key_vec i)))
            (seq 0 16) (uninitialized 16).

Definition _sz_emulate_shuffle_epi8_serial (state_vec : sz_u128_vec_t) (order : list Z)
    : sz_u128_vec_t :=
  fold_left (fun result i => set_u8s result i (u8s state_vec (Z.to_nat (u8s order i))))
            (seq 0 16) (uninitialized 16).

Definition _sz_hash_pi_constants : list Z :=
  [ 0x243F6A8885A308D3; 0x13198A2E03707344; 0xA4093822299F31D0; 0x082EFA98EC4E6C89;
    0x452821E638D01377; 0xBE5466CF34E90C6C; 0xC0AC29B7C97C50DD; 0x3F84D5B5B5470917;
    0x9216D5D98979FB1B; 0xD1310BA698DFB5AC; 0x2FFD72DBD01ADFB7; 0xB8E1AFED6A267E96;
    0xBA7C9045F12C7F99; 0x24A19947B3916CF7; 0x0801F2E2858EFC16; 0x636920D871574E69 ].

(** [pi[i]]. *)
Definition pi_at (i : nat) : Z := nth i _sz_hash_pi_constants 0.

Definition _sz_hash_u8x16x4_shuffle : list Z :=
  [ 0x04; 0x0b; 0x09; 0x06; 0x08; 0x0d; 0x0f; 0x05;
    0x0e; 0x03; 0x01; 0x0c; 0x00; 0x07; 0x0a; 0x02;
    0x04; 0x0b; 0x09; 0x06; 0x08; 0x0d; 0x0f; 0x05;
    0x0e; 0x03; 0x01; 0x0c; 0x00; 0x07; 0x0a; 0x02;
    0x04; 0x0b; 0x09; 0x06; 0x08; 0x0d; 0x0f; 0x05;
    0x0e; 0x03; 0x01; 0x0c; 0x00; 0x07; 0x0a; 0x02;
    0x04; 0x0b; 0x09; 0x06; 0x08; 0x0d; 0x0f; 0x05;
    0x0e; 0x03; 0x01; 0x0c; 0x00; 0x07; 0x0a; 0x02 ].

Definition _sz_hash_minimal_init_serial (seed : Z) : _sz_hash_minimal_t :=
  (* The key is made from the seed and half of it will be mixed with the length in the end *)
  let key := set_u64s (uninitialized 16) 1 seed in
  let key := set_u64s key 0 seed in
  (* XOR the user-supplied keys with the two "pi" constants *)
  let aes := set_u64s (uninitialized 16) 0 (Z.lxor seed (pi_at 0)) in
  let aes := set_u64s aes 1 (Z.lxor seed (pi_at 1)) in
  let sum := set_u64s (uninitialized 16) 0 (Z.lxor seed (pi_at 8)) in
  let sum := set_u64s sum 1 (Z.lxor seed (pi_at 9)) in
  {| min_aes := aes; min_sum := sum; min_key := key |}.

(** [sum.u64s[0] += block.u64s[0], sum.u64s[1] += block.u64s[1]]. *)
Definition add_u64s (sum block : sz_u128_vec_t) : sz_u128_vec_t :=
  let sum := set_u64s sum 0 (u64 (u64s sum 0 + u64s block 0)) in
  set_u64s sum 1 (u64 (u64s sum 1 + u64s block 1)).

Definition _sz_hash_minimal_update_serial (state : _sz_hash_minimal_t)
    (block : sz_u128_vec_t) : _sz_hash_minimal_t :=
  let shuffle := _sz_hash_u8x16x4_shuffle in
  let aes := _sz_emulate_aesenc_si128_serial (min_aes state) block in
  let sum := _sz_emulate_shuffle_epi8_serial (min_sum state) shuffle in
  let sum := add_u64s sum block in
  {| min_aes := aes; min_sum := sum; min_key := min_key state |}.

Definition _sz_hash_minimal_finalize_serial (state : _sz_hash_minimal_t) (length : Z) : Z :=
  (* Mix the length into the key *)
  let key_with_length := min_key state in
  let key_with_length := set_u64s key_with_length 0 (u64 (u64s key_with_length 0 + length)) in
  (* Combine the "sum" and the "AES" blocks *)
  let mixed_registers := _sz_emulate_aesenc_si128_serial (min_sum state) (min_aes state) in
  (* Make sure the "key" mixes enough with the state *)
  let mixed_within_register :=
    _sz_emulate_aesenc_si128_serial
      (_sz_emulate_aesenc_si128_serial mixed_registers key_with_length) mixed_registers in
  (* The low 64 bits *)
  u64s mixed_within_register 0.

Definition _sz_hash_shift_in_register_serial (vec : sz_u128_vec_t) (shift_bytes : Z)
    : sz_u128_vec_t :=
  if shift_bytes >=? 8 then
    let vec := set_u64s vec 0 (Z.shiftr (u64s vec 1) ((shift_bytes - 8) * 8)) in
    set_u64s vec 1 0
  else if negb (shift_bytes =? 0) then
    let vec := set_u64s vec 0
      (u64 (Z.lor (Z.shiftr (u64s vec 0) (shift_bytes * 8))
                  (Z.shiftl (u64s vec 1) ((8 - shift_bytes) * 8)))) in
    set_u64s vec 1 (Z.shiftr (u64s vec 1) (shift_bytes * 8))
  else vec.

(** Field updates of the wide state. *)
Definition set_aes (state : sz_hash_state_t) (x : sz_u512_vec_t) : sz_hash_state_t :=
  {| aes := x; sum := sum state; ins := ins state; key := key state;
     ins_length := ins_length state |}.
Definition set_sum (state : sz_hash_state_t) (x : sz_u512_vec_t) : sz_hash_state_t :=
  {| aes := aes state; sum := x; ins := ins state; key := key state;
     ins_length := ins_length state |}.
Definition set_ins (state : sz_hash_state_t) (x : sz_u512_vec_t) : sz_hash_state_t :=
  {| aes := aes state; sum := sum state; ins := x; key := key state;
     ins_length := ins_length state |}.
Definition set_ins_length (state : sz_hash_state_t) (x : Z) : sz_hash_state_t :=
  {| aes := aes state; sum := sum state; ins := ins state; key := key state;
     ins_length := x |}.

(** [for (i = 0; i < 8; ++i) v.u64s[i] = 0;] *)
Definition zero_u64s (v : sz_u512_vec_t) : sz_u512_vec_t :=
  fold_left (fun v i => set_u64s v i 0) (seq 0 8) v.

Definition sz_hash_state_init_serial (seed : Z) : sz_hash_state_t :=
  (* The key is made from the seed and half of it will be mixed with the length in the end *)
  let key := set_u64s (uninitialized 16) 0 seed in
  let key := set_u64s key 1 seed in
  (* XOR the user-supplied keys with the two "pi" constants *)
  let aes := fold_left (fun aes i => set_u64s aes i (Z.lxor seed (pi_at i)))
                       (seq 0 8) (uninitialized 64) in
  let sum := fold_left (fun sum i => set_u64s sum i (Z.lxor seed (pi_at (i + 8))))
                       (seq 0 8) (uninitialized 64) in
  (* The inputs are zeroed out at the beginning *)
  let ins := zero_u64s (uninitialized 64) in
  {| aes := aes; sum := sum; ins := ins; key := key; ins_length := 0 |}.

(** The update of one 128-bit lane of the wide state. *)
Definition update_lane (state : sz_hash_state_t) (k : nat) : sz_hash_state_t :=
  let shuffle := _sz_hash_u8x16x4_shuffle in
  let aes_vecs := aes state in
  let sum_vecs := sum state in
  let ins_vecs := ins state in
  let aes_vecs :=
    set_vecs aes_vecs k (_sz_emulate_aesenc_si128_serial (vecs aes_vecs k) (vecs ins_vecs k)) in
  let sum_vecs :=
    set_vecs sum_vecs k (_sz_emulate_shuffle_epi8_serial (vecs sum_vecs k) shuffle) in
  let sum_vecs := set_vecs sum_vecs k (add_u64s (vecs sum_vecs k) (vecs ins_vecs k)) in
  set_sum (set_aes state aes_vecs) sum_vecs.

Definition _sz_hash_state_update_serial (state : sz_hash_state_t) : sz_hash_state_t :=
  (* First 128-bit block *)
  let state := update_lane state 0 in
  (* Second 128-bit block *)
  let state := update_lane state 1 in
  (* Third 128-bit block *)
  let state := update_lane state 2 in
  (* Fourth 128-bit block *)
  update_lane state 3.

Definition _sz_hash_state_finalize_serial (state : sz_hash_state_t) : Z :=
  (* Mix the length into the key *)
  let key_with_length := key state in
  let key_with_length :=
    set_u64s key_with_length 0 (u64 (u64s key_with_length 0 + ins_length state)) in
  let aes_vecs := aes state in
  let sum_vecs := sum state in
  (* Combine the "sum" and the "AES" blocks *)
  let mixed_registers0 := _sz_emulate_aesenc_si128_serial (vecs sum_vecs 0) (vecs aes_vecs 0) in
  let mixed_registers1 := _sz_emulate_aesenc_si128_serial (vecs sum_vecs 1) (vecs aes_vecs 1) in
  let mixed_registers2 := _sz_emulate_aesenc_si128_serial (vecs sum_vecs 2) (vecs aes_vecs 2) in
  let mixed_registers3 := _sz_emulate_aesenc_si128_serial (vecs sum_vecs 3) (vecs aes_vecs 3) in
  (* Combine the mixed registers *)
  let mixed_registers01 := _sz_emulate_aesenc_si128_serial mixed_registers0 mixed_registers1 in
  let mixed_registers23 := _sz_emulate_aesenc_si128_serial mixed_registers2 mixed_registers3 in
  let mixed_registers := _sz_emulate_aesenc_si128_serial mixed_registers01 mixed_registers23 in
  (* Make sure the "key" mixes enough with the state *)
  let mixed_within_register :=
    _sz_emulate_aesenc_si128_serial
      (_sz_emulate_aesenc_si128_serial mixed_registers key_with_length) mixed_registers in
  (* The low 64 bits *)
  u64s mixed_within_register 0.

(** [v.u64s[0] = *(sz_u64_t const * )(start + offset); v.u64s[1] = ... + 8]. *)
Definition load_u128 (start : list Z) (offset : Z) : sz_u128_vec_t :=
  let v := set_u64s (uninitialized 16) 0 (load_u64 start offset) in
  set_u64s v 1 (load_u64 start (u64 (offset + 8))).

(** The main loop of the long path of [sz_hash_serial]: one full block, the
    eight loads [state.ins.u64s[i] = *(sz_u64_t const * )(start +
    state.ins_length + 8 i)], the update, and [state.ins_length += 64]. *)
Definition hash_block_step (start : list Z) (state : sz_hash_state_t) : sz_hash_state_t :=
  let ins := fold_left
    (fun ins i => set_u64s ins i
       (load_u64 start (u64 (ins_length state + 8 * Z.of_nat i))))
    (seq 0 8) (ins state) in
  let state := set_ins state ins in
  let state := _sz_hash_state_update_serial state in
  set_ins_length state (u64 (ins_length state + 64)).

(** The loop that copies the tail of the long path, on [(i, state)]. *)
Definition hash_tail_step (start : list Z) (s : nat * sz_hash_state_t)
    : nat * sz_hash_state_t :=
  let '(i, state) := s in
  let state := set_ins state (set_u8s (ins state) i (u8s start (Z.to_nat (ins_length state)))) in
  (S i, set_ins_length state (u64 (ins_length state + 1))).

Definition sz_hash_serial (start : list Z) (length seed : Z) : option Z :=
  if length <=? 16 then
    (* Initialize the AES block with a given seed *)
    let state := _sz_hash_minimal_init_serial seed in
    (* The data is loaded and the state updated *)
    let data_vec := set_u64s (uninitialized 16) 1 0 in
    let data_vec := set_u64s data_vec 0 0 in
    let data_vec := fold_left (fun data_vec i => set_u8s data_vec i (u8s start i))
                              (seq 0 (Z.to_nat length)) data_vec in
    let state := _sz_hash_minimal_update_serial state data_vec in
    Some (_sz_hash_minimal_finalize_serial state length)
  else if length <=? 32 then
    let state := _sz_hash_minimal_init_serial seed in
    let data0_vec := load_u128 start 0 in
    let data1_vec := load_u128 start (u64 (length - 16)) in
    (* Let's shift the data within the register to de-interleave the bytes. *)
    let data1_vec := _sz_hash_shift_in_register_serial data1_vec (u64 (32 - length)) in
    let state := _sz_hash_minimal_update_serial state data0_vec in
    let state := _sz_hash_minimal_update_serial state data1_vec in
    Some (_sz_hash_minimal_finalize_serial state length)
  else if length <=? 48 then
    let state := _sz_hash_minimal_init_serial seed in
    let data0_vec := load_u128 start 0 in
    let data1_vec := load_u128 start 16 in
    let data2_vec := load_u128 start (u64 (length - 16)) in
    let data2_vec := _sz_hash_shift_in_register_serial data2_vec (u64 (48 - length)) in
    let state := _sz_hash_minimal_update_serial state data0_vec in
    let state := _sz_hash_minimal_update_serial state data1_vec in
    let state := _sz_hash_minimal_update_serial state data2_vec in
    Some (_sz_hash_minimal_finalize_serial state length)
  else if length <=? 64 then
    let state := _sz_hash_minimal_init_serial seed in
    let data0_vec := load_u128 start 0 in
    let data1_vec := load_u128 start 16 in
    let data2_vec := load_u128 start 32 in
    let data3_vec := load_u128 start (u64 (length - 16)) in
    let data3_vec := _sz_hash_shift_in_register_serial data3_vec (u64 (64 - length)) in
    let state := _sz_hash_minimal_update_serial state data0_vec in
    let state := _sz_hash_minimal_update_serial state data1_vec in
    let state := _sz_hash_minimal_update_serial state data2_vec in
    let state := _sz_hash_minimal_update_serial state data3_vec in
    Some (_sz_hash_minimal_finalize_serial state length)
  else
    (* Use a larger state to handle the main loop *)
    let state := sz_hash_state_init_serial seed in
    state ← while (Z.to_nat length)
                  (fun state => u64 (ins_length state + 64) <=? length)
                  (hash_block_step start) state;
    if ins_length state <? length then
      let state := set_ins state (zero_u64s (ins state)) in
      '(_, state) ← while (Z.to_nat length)
                          (fun s => ins_length (snd s) <? length)
                          (hash_tail_step start) (O, state);
      let state := _sz_hash_state_update_serial state in
      let state := set_ins_length state length in
      Some (_sz_hash_state_finalize_serial state)
    else Some (_sz_hash_state_finalize_serial state).

(** [while (to_copy--) state->ins.u8s[progress_in_block++] = *text++;] the
    result is the buffer and the advanced [text]. *)
Fixpoint copy_into_ins (to_copy : nat) (ins : sz_u512_vec_t) (progress_in_block : nat)
    (text : list Z) : sz_u512_vec_t * list Z :=
  match to_copy with
  | O => (ins, text)
  | S to_copy =>
      copy_into_ins to_copy (set_u8s ins progress_in_block (hd 0 text))
                    (S progress_in_block) (tl text)
  end.

(** The variables of the loop of [sz_hash_state_stream_serial]. *)
Record stream_vars : Type := {
  sv_state : sz_hash_state_t;
  sv_text : list Z;
  sv_length : Z
}.

Definition stream_step (v : stream_vars) : stream_vars :=
  let state := sv_state v in
  let progress_in_block := ins_length state mod 64 in
  let to_copy := sz_min_of_two (sv_length v) (64 - progress_in_block) in
  let will_fill_block := progress_in_block + to_copy =? 64 in
  (* Update the metadata before we modify the `to_copy` variable *)
  let state := set_ins_length state (u64 (ins_length state + to_copy)) in
  let length := u64 (sv_length v - to_copy) in
  (* Append to the internal buffer until it's full *)
  let '(filled, text) :=
    copy_into_ins (Z.to_nat to_copy) (ins state) (Z.to_nat progress_in_block) (sv_text v) in
  let state := set_ins state filled in
  (* If we've reached the end of the buffer, update the state *)
  let state :=
    if will_fill_block then
      let state := _sz_hash_state_update_serial state in
      (* The buffer is zeroed now, so that folding need not touch it *)
      set_ins state (zero_u64s (ins state))
    else state in
  {| sv_state := state; sv_text := text; sv_length := length |}.

(** The loop of [sz_hash_state_stream_serial], with what is left of [text]
    and [length] when it ends. *)
Definition stream_loop (state : sz_hash_state_t) (text : list Z) (length : Z)
    : option stream_vars :=
  while (Z.to_nat length) (fun v => negb (sv_length v =? 0)) stream_step
        {| sv_state := state; sv_text := text; sv_length := length |}.

Definition sz_hash_state_stream_serial (state : sz_hash_state_t) (text : list Z)
    (length : Z) : option sz_hash_state_t :=
  v ← stream_loop state text length; Some (sv_state v).

Definition sz_hash_state_fold_serial (state : sz_hash_state_t) : Z :=
  let length := ins_length state in
  if length >=? 64 then _sz_hash_state_finalize_serial state
  else
    (* Switch back to a smaller "minimal" state for small inputs *)
    let minimal_state :=
      {| min_key := key state; min_aes := vecs (aes state) 0; min_sum := vecs (sum state) 0 |} in
    (* The logic is different depending on the length of the input *)
    let ins_vecs := ins state in
    if length <=? 16 then
      let minimal_state := _sz_hash_minimal_update_serial minimal_state (vecs ins_vecs 0) in
      _sz_hash_minimal_finalize_serial minimal_state length
    else if length <=? 32 then
      let minimal_state := _sz_hash_minimal_update_serial minimal_state (vecs ins_vecs 0) in
      let minimal_state := _sz_hash_minimal_update_serial minimal_state (vecs ins_vecs 1) in
      _sz_hash_minimal_finalize_serial minimal_state length
    else if length <=? 48 then
      let minimal_state := _sz_hash_minimal_update_serial minimal_state (vecs ins_vecs 0) in
      let minimal_state := _sz_hash_minimal_update_serial minimal_state (vecs ins_vecs 1) in
      let minimal_state := _sz_hash_minimal_update_serial minimal_state (vecs ins_vecs 2) in
      _sz_hash_minimal_finalize_serial minimal_state length
    else
      let minimal_state := _sz_hash_minimal_update_serial minimal_state (vecs ins_vecs 0) in
      let minimal_state := _sz_hash_minimal_update_serial minimal_state (vecs ins_vecs 1) in
      let minimal_state := _sz_hash_minimal_update_serial minimal_state (vecs ins_vecs 2) in
      let minimal_state := _sz_hash_minimal_update_serial minimal_state (vecs ins_vecs 3) in
      _sz_hash_minimal_finalize_serial minimal_state length.

(** The output pointer [sz_ptr_t text]: the caller's memory from the
    address first passed, the offset the pointer has reached, and the
    offsets stored to so far, in order. *)
Record sz_ptr_t : Type := {
  buffer : list Z;
  position : nat;
  written : list nat
}.

(** The pointer as the caller passes it. *)
Definition pointer_to (memory : list Z) : sz_ptr_t :=
  {| buffer := memory; position := O; written := [] |}.

(** [*text++ = x]. *)
Definition store (text : sz_ptr_t) (x : Z) : sz_ptr_t :=
  {| buffer := <[position text := u8 x]> (buffer text);
     position := S (position text);
     written := written text ++ [position text] |}.

(** The bytes of the array [pi] in memory, as [(sz_u128_vec_t const * )pi_ptr]
    sees them. *)
Definition pi_bytes : list Z :=
  concat (map (le_encode 8) _sz_hash_pi_constants).

(** [for (int i = 0; i < 16 && length; ++i, --length) *text++ = generated_vec.u8s[i];]
    over the indices still to visit. *)
Fixpoint export_generated (indices : list nat) (generated_vec : sz_u128_vec_t)
    (text : sz_ptr_t) (length : Z) : sz_ptr_t * Z :=
  match indices with
  | [] => (text, length)
  | i :: indices =>
      if negb (length =? 0)
      then export_generated indices generated_vec (store text (u8s generated_vec i))
                            (u64 (length - 1))
      else (text, length)
  end.

(** The variables of the loop of [sz_generate_serial]. *)
Record generate_vars : Type := {
  gv_text : sz_ptr_t;
  gv_length : Z;
  gv_lane_index : Z
}.

Definition generate_step (nonce : Z) (v : generate_vars) : generate_vars :=
  let lane_index := gv_lane_index v in
  (* Each 128-bit block is initialized with the same nonce *)
  let input_vec := set_u64s (uninitialized 16) 1 (u64 (nonce + lane_index)) in
  let input_vec := set_u64s input_vec 0 (u64 (nonce + lane_index)) in
  (* We rotate the first 512-bits of the Pi to mix with the nonce *)
  let pi_vec := vecs pi_bytes (Z.to_nat (lane_index mod 4)) in
  let key_vec := set_u64s (uninitialized 16) 0 (Z.lxor nonce (u64s pi_vec 0)) in
  let key_vec := set_u64s key_vec 1 (Z.lxor nonce (u64s pi_vec 1)) in
  let generated_vec := _sz_emulate_aesenc_si128_serial input_vec key_vec in
  (* Out to the user-supplied buffer *)
  let '(text, length) :=
    export_generated (seq 0 16) generated_vec (gv_text v) (gv_length v) in
  {| gv_text := text; gv_length := length; gv_lane_index := u64 (lane_index + 1) |}.

Definition sz_generate_serial (text : sz_ptr_t) (length nonce : Z) : option sz_ptr_t :=
  v ← while (Z.to_nat length) (fun v => negb (gv_length v =? 0)) (generate_step nonce)
            {| gv_text := text; gv_length := length; gv_lane_index := 0 |};
  Some (gv_text v).

(** ** The specification's vocabulary *)

(** The AES round of FIPS 197 on a block of sixteen bytes, byte [r + 4 c] of
    the block being row [r], column [c] of the AES state. *)
Module AES.

(** Doubling in GF(2^8): [x * 2 = (x << 1) xor ((x >> 7) * 0x1b)], a byte. *)
Definition xtime (x : Z) : Z :=
  Z.lxor (Z.shiftl x 1) (Z.shiftr x 7 * 0x1b) mod 256.

(** The product of [a] by the low [n] bits of [b] in GF(2^8). *)
Fixpoint gf_mul_bits (n : nat) (a b : Z) : Z :=
  match n with
  | O => 0
  | S n' => Z.lxor (if Z.odd b then a else 0)
                   (gf_mul_bits n' (xtime a) (Z.shiftr b 1))
  end.

Definition gf_mul (a b : Z) : Z := gf_mul_bits 8 a b.

(** The inverse in GF(2^8), with [0] sent to [0]: the 254th power. *)
Definition gf_inv (x : Z) : Z :=
  let x2 := gf_mul x x in
  let x4 := gf_mul x2 x2 in
  let x8 := gf_mul x4 x4 in
  let x16 := gf_mul x8 x8 in
  let x32 := gf_mul x16 x16 in
  let x64 := gf_mul x32 x32 in
  let x128 := gf_mul x64 x64 in
  gf_mul x128 (gf_mul x64 (gf_mul x32 (gf_mul x16 (gf_mul x8 (gf_mul x4 x2))))).

Definition rotl8 (x : Z) (k : Z) : Z :=
  Z.lor (Z.shiftl x k) (Z.shiftr x (8 - k)) mod 256.

(** The S-box: the inverse followed by the affine map over GF(2). *)
Definition SBox (x : Z) : Z :=
  let b := gf_inv x in
  Z.lxor (Z.lxor (Z.lxor (Z.lxor (Z.lxor b (rotl8 b 1)) (rotl8 b 2)) (rotl8 b 3))
                 (rotl8 b 4)) 0x63.

(** Row [r] is rotated left by [r] columns. *)
Definition ShiftRows (s : list Z) : list Z :=
  map (fun i => nth (i mod 4 + 4 * ((i / 4 + i mod 4) mod 4)) s 0) (seq 0 16).

Definition SubBytes (s : list Z) : list Z := map SBox s.

(** One column multiplied by the matrix [2 3 1 1; 1 2 3 1; 1 1 2 3; 3 1 1 2]. *)
Definition MixColumn (s : list Z) (c : nat) : list Z :=
  let s0 := nth (4 * c) s 0 in
  let s1 := nth (4 * c + 1) s 0 in
  let s2 := nth (4 * c + 2) s 0 in
  let s3 := nth (4 * c + 3) s 0 in
  [ Z.lxor (Z.lxor (Z.lxor (gf_mul s0 2) (gf_mul s1 3)) s2) s3;
    Z.lxor (Z.lxor (Z.lxor s0 (gf_mul s1 2)) (gf_mul s2 3)) s3;
    Z.lxor (Z.lxor (Z.lxor s0 s1) (gf_mul s2 2)) (gf_mul s3 3);
    Z.lxor (Z.lxor (Z.lxor (gf_mul s0 3) s1) s2) (gf_mul s3 2) ].

Definition MixColumns (s : list Z) : list Z :=
  concat (map (MixColumn s) (seq 0 4)).

Definition AddRoundKey (s k : list Z) : list Z :=
  map (fun i => Z.lxor (nth i s 0) (nth i k 0)) (seq 0 16).

(** [MixColumns(SubBytes(ShiftRows(S))) xor K]. *)
Definition round (S K : list Z) : list Z :=
  AddRoundKey (MixColumns (SubBytes (ShiftRows S))) K.

End AES.

(** A 128-bit block seen as its two little-endian 64-bit lanes. *)
Definition lane0 (v : list Z) : Z := le_decode v mod 2 ^ 64.
Definition lane1 (v : list Z) : Z := le_decode v / 2 ^ 64.
Definition block_of_lanes (lo hi : Z) : list Z :=
  le_encode 16 (lo mod 2 ^ 64 + 2 ^ 64 * (hi mod 2 ^ 64)).

(** Lane-wise 64-bit addition of two blocks. *)
Definition add_lanes (a b : list Z) : list Z :=
  block_of_lanes (lane0 a + lane0 b) (lane1 a + lane1 b).

(** The additive shuffle [P] of the specification. *)
Definition additive_shuffle : list nat :=
  [4; 11; 9; 6; 8; 13; 15; 5; 14; 3; 1; 12; 0; 7; 10; 2]%nat.

(** [shuffle(v, P)]: byte [i] of the result is byte [P[i]] of [v]. *)
Definition spec_shuffle (v : list Z) : list Z :=
  map (fun p => nth p v 0) additive_shuffle.

(** The specification's [update(block)] of the minimal state:
    [aes := AES_round(aes, block)]; [sum := shuffle(sum, P) + block],
    lane-wise. *)
Definition spec_minimal_update (state : _sz_hash_minimal_t) (block : list Z)
    : _sz_hash_minimal_t :=
  {| min_aes := AES.round (min_aes state) block;
     min_sum := add_lanes (spec_shuffle (min_sum state)) block;
     min_key := min_key state |}.

(** The specification's [finalize(length)] of the minimal state:
    [k' := key + (length, 0)]; [m := AES_round(sum, aes)];
    [m := AES_round(AES_round(m, k'), m)]; return the low 64 bits of [m]. *)
Definition spec_minimal_finalize (state : _sz_hash_minimal_t) (length : Z) : Z :=
  let k' := add_lanes (min_key state) (block_of_lanes length 0) in
  let m := AES.round (min_sum state) (min_aes state) in
  let m := AES.round (AES.round m k') m in
  lane0 m.

(** The specification's finalization of the wide state: the key takes
    [ins_length] into its low lane, every lane [i] gives
    [AES_round(sum_i, aes_i)], the four results are reduced pairwise, and the
    result is finalized as in the minimal state. *)
Definition spec_wide_finalize (state : sz_hash_state_t) : Z :=
  let k' := add_lanes (key state) (block_of_lanes (ins_length state) 0) in
  let mixed i := AES.round (vecs (sum state) i) (vecs (aes state) i) in
  let m01 := AES.round (mixed 0%nat) (mixed 1%nat) in
  let m23 := AES.round (mixed 2%nat) (mixed 3%nat) in
  let m := AES.round m01 m23 in
  lane0 (AES.round (AES.round m k') m).

(** The specification's fold of a wide state: below 64 bytes a minimal state
    made of lane 0 of [aes], lane 0 of [sum] and the key absorbs
    [ceil(ins_length / 16)] blocks of the input buffer, at least one, and is
    finalized with [ins_length]; from 64 bytes on the wide finalization
    applies. *)
Definition spec_fold (state : sz_hash_state_t) : Z :=
  if ins_length state <? 64 then
    let blocks := Z.to_nat (Z.max 1 ((ins_length state + 15) / 16)) in
    let minimal :=
      {| min_aes := vecs (aes state) 0; min_sum := vecs (sum state) 0;
         min_key := key state |} in
    let minimal :=
      fold_left (fun m k => _sz_hash_minimal_update_serial m (vecs (ins state) k))
                (seq 0 blocks) minimal in
    _sz_hash_minimal_finalize_serial minimal (ins_length state)
  else _sz_hash_state_finalize_serial state.

(** The same fold with every step taken from the specification: its update
    and finalization of the minimal state, and its wide finalization. *)
Definition spec_digest (state : sz_hash_state_t) : Z :=
  if ins_length state <? 64 then
    let blocks := Z.to_nat (Z.max 1 ((ins_length state + 15) / 16)) in
    let minimal :=
      {| min_aes := vecs (aes state) 0; min_sum := vecs (sum state) 0;
         min_key := key state |} in
    let minimal :=
      fold_left (fun m k => spec_minimal_update m (vecs (ins state) k))
                (seq 0 blocks) minimal in
    spec_minimal_finalize minimal (ins_length state)
  else spec_wide_finalize state.

(** The specification's block [i] of the generator:
    [AES_round(I_i, K_i)] with [I_i = (nonce + i, nonce + i)] and
    [K_i = (nonce xor pi[2 (i mod 4)], nonce xor pi[2 (i mod 4) + 1])]. *)
Definition spec_generate_block (nonce i : Z) : list Z :=
  let I := block_of_lanes (nonce + i) (nonce + i) in
  let K := block_of_lanes (Z.lxor nonce (pi_at (Z.to_nat (2 * (i mod 4)))))
                          (Z.lxor nonce (pi_at (Z.to_nat (2 * (i mod 4) + 1)))) in
  AES.round I K.

(** The exact sum of the byte values. *)
Definition byte_total (b : list Z) : Z := fold_right Z.add 0 b.

(** A naive 64-bit accumulator over the bytes, first to last. *)
Fixpoint naive_accumulator (acc : Z) (b : list Z) : Z :=
  match b with
  | [] => acc
  | x :: rest => naive_accumulator ((acc + x) mod 2 ^ 64) rest
  end.

(** Streaming a list of chunks, each with its full length, in order. *)
Fixpoint stream_chunks (state : sz_hash_state_t) (chunks : list (list Z))
    : option sz_hash_state_t :=
  match chunks with
  | [] => Some state
  | c :: rest =>
      state ← sz_hash_state_stream_serial state c (Z.of_nat (length c));
      stream_chunks state rest
  end.

(** The digest of a seed and a sequence of chunks through the state API. *)
Definition streamed_digest (seed : Z) (chunks : list (list Z)) : option Z :=
  state ← stream_chunks (sz_hash_state_init_serial seed) chunks;
  Some (sz_hash_state_fold_serial state).

(** The states that initialization and streaming can produce, with the
    number of bytes streamed since initialization; each call is given a
    buffer that holds the bytes it announces. *)
Inductive reachable : sz_hash_state_t -> Z -> Prop :=
| reachable_init (seed : Z) :
    reachable (sz_hash_state_init_serial seed) 0
| reachable_stream (state state' : sz_hash_state_t) (total : Z)
                   (text : list Z) (n : Z) :
    reachable state total ->
    is_u64 n -> n <= Z.of_nat (length text) ->
    sz_hash_state_stream_serial state text n = Some state' ->
    reachable state' (total + n).

(** ** Definitions that serve the proofs *)

(** An exhaustive check over the bytes. *)
Definition all_bytes (P : Z -> bool) : bool :=
  forallb (fun n => P (Z.of_nat n)) (seq 0 256).

(** The invariant of the input buffer: 64 bytes, zero from the progress in
    the block on, under a counter that fits [sz_size_t]. *)
Definition ins_invariant (state : sz_hash_state_t) : Prop :=
  length (ins state) = 64%nat /\
  is_u64 (ins_length state) /\
  forall i, (Z.to_nat (ins_length state mod 64) <= i < 64)%nat -> u8s (ins state) i = 0.

(** The block the loop of [sz_generate_serial] computes for a lane index. *)
Definition generated_block (nonce lane_index : Z) : sz_u128_vec_t :=
  let input_vec := set_u64s (uninitialized 16) 1 (u64 (nonce + lane_index)) in
  let input_vec := set_u64s input_vec 0 (u64 (nonce + lane_index)) in
  let pi_vec := vecs pi_bytes (Z.to_nat (lane_index mod 4)) in
  let key_vec := set_u64s (uninitialized 16) 0 (Z.lxor nonce (u64s pi_vec 0)) in
  let key_vec := set_u64s key_vec 1 (Z.lxor nonce (u64s pi_vec 1)) in
  _sz_emulate_aesenc_si128_serial input_vec key_vec.

(** What the export loop leaves: [n] bytes of [g], from its index [a] on,
    stored from the position of [text] on. *)
Record exported (g : list Z) (a : nat) (text : sz_ptr_t) (n : nat)
    (text' : sz_ptr_t) : Prop := {
  exported_position : position text' = (position text + n)%nat;
  exported_written : written text' = written text ++ seq (position text) n;
  exported_length : length (buffer text') = length (buffer text);
  exported_outside : forall j, (j < position text \/ position text + n <= j)%nat ->
                               buffer text' !! j = buffer text !! j;
  exported_inside : forall j, (position text <= j < position text + n)%nat ->
                              (j < length (buffer text))%nat ->
                              u8s (buffer text') j = u8 (u8s g (a + (j - position text)))
}.

(** The invariant of the loop of [sz_generate_serial] for a request of
    [total] bytes over [memory]. *)
Record generating (memory : list Z) (total nonce : Z) (v : generate_vars) : Prop := {
  g_length : 0 <= gv_length v;
  g_position : Z.of_nat (position (gv_text v)) + gv_length v = total;
  g_written : written (gv_text v) = seq 0 (position (gv_text v));
  g_size : length (buffer (gv_text v)) = length memory;
  g_frame : forall j, (position (gv_text v) <= j)%nat ->
                      buffer (gv_text v) !! j = memory !! j;
  g_lane : gv_length v <> 0 ->
           Z.of_nat (position (gv_text v)) = 16 * gv_lane_index v;
  g_bytes : forall j, (j < position (gv_text v))%nat -> (j < length memory)%nat ->
                      u8s (buffer (gv_text v)) j
                      = u8s (generated_block nonce (Z.of_nat j / 16)) (j mod 16)
}.

(** The state that has streamed the bytes [b], fewer than 64, after [seed]. *)
Definition short_state (seed : Z) (b : list Z) : sz_hash_state_t :=
  {| aes := aes (sz_hash_state_init_serial seed);
     sum := sum (sz_hash_state_init_serial seed);
     ins := map u8 b ++ replicate (64 - length b) 0;
     key := key (sz_hash_state_init_serial seed);
     ins_length := Z.of_nat (length b) |}.

(** Streaming the single byte [x]. *)
Definition absorb_byte (state : sz_hash_state_t) (x : Z) : sz_hash_state_t :=
  sv_state (stream_step {| sv_state := state; sv_text := [x]; sv_length := 1 |}).

(** What one turn of the streaming loop does to the state when it copies
    [to_copy] bytes. *)
Definition block_step (state : sz_hash_state_t) (to_copy : nat) (text : list Z)
    : sz_hash_state_t :=
  let progress_in_block := ins_length state mod 64 in
  let state' :=
    set_ins (set_ins_length state (u64 (ins_length state + Z.of_nat to_copy)))
            (fst (copy_into_ins to_copy (ins state) (Z.to_nat progress_in_block) text)) in
  if progress_in_block + Z.of_nat to_copy =? 64 then
    set_ins (_sz_hash_state_update_serial state')
            (zero_u64s (ins (_sz_hash_state_update_serial state')))
  else state'.

(** Two states with the same accumulators, key and counter. *)
Definition same_but_ins (lhs rhs : sz_hash_state_t) : Prop :=
  aes lhs = aes rhs /\ sum lhs = sum rhs /\ key lhs = key rhs /\
  ins_length lhs = ins_length rhs.

(** States whose vectors hold the right number of bytes. *)
Definition minimal_ok (state : _sz_hash_minimal_t) : Prop :=
  bytes_ok 16 (min_aes state) /\ bytes_ok 16 (min_sum state) /\
  bytes_ok 16 (min_key state).

Definition state_ok (state : sz_hash_state_t) : Prop :=
  bytes_ok 64 (aes state) /\ bytes_ok 64 (sum state) /\
  bytes_ok 64 (ins state) /\ bytes_ok 16 (key state).

Definition state_okb (state : sz_hash_state_t) : bool :=
  bytes_okb 64 (aes state) && bytes_okb 64 (sum state) &&
  bytes_okb 64 (ins state) && bytes_okb 16 (key state).

(** ** Sample inputs *)

(** The cipher input and round key of the first round of the worked example
    of FIPS 197, appendix B. *)
Definition fips_state : list Z :=
  [0x19; 0x3d; 0xe3; 0xbe; 0xa0; 0xf4; 0xe2; 0x2b;
   0x9a; 0xc6; 0x8d; 0x2a; 0xe9; 0xf8; 0x48; 0x08].
Definition fips_round_key : list Z :=
  [0xa0; 0xfa; 0xfe; 0x17; 0x88; 0x54; 0x2c; 0xb1;
   0x23; 0xa3; 0x39; 0x39; 0x2a; 0x6c; 0x76; 0x05].

(** ["abc"], and the state that has streamed it after seed 42. *)
Definition abc : list Z := [97; 98; 99].
Definition streamed_abc : sz_hash_state_t :=
  default (sz_hash_state_init_serial 42)
          (sz_hash_state_stream_serial (sz_hash_state_init_serial 42) abc 3).

(** Two blocks of 64 bytes that differ in byte 32 only, and the states that
    have streamed them after seed 0. *)
Definition zero_block : list Z := replicate 64 0.
Definition other_block : list Z := <[32%nat := 1]> (replicate 64 0).
Definition streamed_zero_block : sz_hash_state_t :=
  default (sz_hash_state_init_serial 0)
          (sz_hash_state_stream_serial (sz_hash_state_init_serial 0) zero_block 64).
Definition streamed_other_block : sz_hash_state_t :=
  default (sz_hash_state_init_serial 0)
          (sz_hash_state_stream_serial (sz_hash_state_init_serial 0) other_block 64).

(** * Proofs *)

(** ** Bytes *)

Lemma u8_range (x : Z) : is_u8 (u8 x).
Proof. unfold is_u8, u8. apply Z.mod_pos_bound. lia. Qed.

Lemma u8_id (x : Z) : is_u8 x -> u8 x = x.
Proof. unfold is_u8, u8. intros H. apply Z.mod_small. exact H. Qed.

Lemma u8_land (x : Z) : u8 x = Z.land x 255.
Proof. unfold u8. change 255 with (Z.ones 8). rewrite Z.land_ones by lia. reflexivity. Qed.

Lemma u8_lxor (a b : Z) : u8 (Z.lxor a b) = Z.lxor (u8 a) (u8 b).
Proof.
  rewrite !u8_land. apply Z.bits_inj'. intros n Hn.
  rewrite !Z.land_spec, !Z.lxor_spec, !Z.land_spec.
  destruct (Z.testbit a n), (Z.testbit b n), (Z.testbit 255 n); reflexivity.
Qed.

Lemma lxor_u8 (a b : Z) : is_u8 a -> is_u8 b -> is_u8 (Z.lxor a b).
Proof.
  intros Ha Hb. rewrite <- (u8_id a Ha), <- (u8_id b Hb), <- u8_lxor. apply u8_range.
Qed.

(** A property checked on the 256 bytes holds of every byte. *)
Lemma all_bytes_spec (P : Z -> bool) :
  all_bytes P = true -> forall x, is_u8 x -> P x = true.
Proof.
  unfold all_bytes, is_u8. intros H x Hx.
  rewrite forallb_forall in H.
  specialize (H (Z.to_nat x)). rewrite Z2Nat.id in H by lia.
  apply H. apply in_seq. lia.
Qed.

(** The table [sbox] of the source is the S-box of FIPS 197. *)
Lemma sbox_standard (x : Z) : is_u8 x -> sbox_at x = AES.SBox x.
Proof.
  intros Hx. apply Z.eqb_eq.
  revert x Hx. apply all_bytes_spec. vm_compute. reflexivity.
Qed.

Lemma SBox_range (x : Z) : is_u8 x -> is_u8 (AES.SBox x).
Proof.
  intros Hx. unfold is_u8.
  enough (((0 <=? AES.SBox x) && (AES.SBox x <? 256)) = true) by lia.
  revert x Hx. apply all_bytes_spec. vm_compute. reflexivity.
Qed.

(** [AES.gf_inv] is the inverse of the field, which makes [AES.SBox] the
    S-box of the standard and not merely a copy of the table. *)
Lemma gf_inv_inverse (x : Z) : is_u8 x -> x <> 0 -> AES.gf_mul x (AES.gf_inv x) = 1.
Proof.
  intros Hx Hnz.
  assert (H : (x =? 0) || (AES.gf_mul x (AES.gf_inv x) =? 1) = true).
  { clear Hnz. revert x Hx. apply all_bytes_spec. vm_compute. reflexivity. }
  apply orb_true_iff in H. destruct H as [H | H]; lia.
Qed.

Lemma gf_mul_2 (x : Z) : is_u8 x -> AES.gf_mul x 2 = AES.xtime x.
Proof.
  intros Hx. apply Z.eqb_eq. revert x Hx. apply all_bytes_spec. vm_compute. reflexivity.
Qed.

Lemma gf_mul_3 (x : Z) : is_u8 x -> AES.gf_mul x 3 = Z.lxor (AES.xtime x) x.
Proof.
  intros Hx. apply Z.eqb_eq. revert x Hx. apply all_bytes_spec. vm_compute. reflexivity.
Qed.

(** The macro of the source, stored into a byte, is the doubling. *)
Lemma gf2_double_xtime (x : Z) : is_u8 x -> u8 (_sz_gf2_double x) = AES.xtime x.
Proof.
  intros Hx. apply Z.eqb_eq. revert x Hx. apply all_bytes_spec. vm_compute. reflexivity.
Qed.

Lemma xtime_range (x : Z) : is_u8 (AES.xtime x).
Proof. unfold AES.xtime. apply u8_range. Qed.

(** Doubling is linear. *)
Lemma xtime_lxor (a b : Z) :
  is_u8 a -> is_u8 b -> AES.xtime (Z.lxor a b) = Z.lxor (AES.xtime a) (AES.xtime b).
Proof.
  intros Ha Hb. apply Z.eqb_eq. revert b Hb.
  apply (all_bytes_spec (fun b => AES.xtime (Z.lxor a b) =? Z.lxor (AES.xtime a) (AES.xtime b))).
  revert a Ha.
  apply (all_bytes_spec (fun a => all_bytes (fun b => AES.xtime (Z.lxor a b) =? Z.lxor (AES.xtime a) (AES.xtime b)))).
  vm_compute. reflexivity.
Qed.

(** ** The AES round *)

(** The side conditions of the rewriting below are all of the form
    [is_u8 _]. *)
Create HintDb bytes.
#[local] Hint Resolve u8_range xtime_range SBox_range lxor_u8 : bytes.

Ltac bytes_side := solve [auto with bytes].

(** Two exclusive-or combinations of the same bytes are equal when they are
    so bit by bit. *)

Ltac xor_bits :=
  apply Z.bits_inj'; intros ? _; rewrite ?Z.lxor_spec;
  repeat match goal with
         | |- context [Z.testbit ?x ?n] => destruct (Z.testbit x n)
         end;
  reflexivity.

(** The emulation against the standard round, on sixteen named bytes: both
    sides are evaluated to their sixteen output bytes, which are then
    compared bit by bit. *)
Lemma aesenc_16 (s0 s1 s2 s3 s4 s5 s6 s7 s8 s9 s10 s11 s12 s13 s14 s15 : Z)
                (K : list Z) :
  Forall is_u8 [s0; s1; s2; s3; s4; s5; s6; s7; s8; s9; s10; s11; s12; s13; s14; s15] ->
  bytes_ok 16 K ->
  _sz_emulate_aesenc_si128_serial
    [s0; s1; s2; s3; s4; s5; s6; s7; s8; s9; s10; s11; s12; s13; s14; s15] K
  = AES.round [s0; s1; s2; s3; s4; s5; s6; s7; s8; s9; s10; s11; s12; s13; s14; s15] K.
Proof.
  intros HS [HlenK HK].
  do 17 (destruct K as [|? K]; try discriminate HlenK). clear HlenK.
  repeat match goal with
         | H : Forall _ (_ :: _) |- _ => apply Forall_cons_1 in H; destruct H as [? H]
         | H : Forall _ [] |- _ => clear H
         end.
  unfold _sz_emulate_aesenc_si128_serial, AES.round, AES.AddRoundKey, AES.MixColumns,
    AES.MixColumn, AES.SubBytes, AES.ShiftRows, mix_columns_step, set_state_2d, state_2d_at,
    set_u8s, u8s, uninitialized.
  cbn -[Z.lxor u8 sbox_at _sz_gf2_double AES.SBox AES.gf_mul].
  rewrite !sbox_standard by assumption.
  rewrite !gf_mul_2, !gf_mul_3 by bytes_side.
  repeat (apply (f_equal2 cons);
          [ rewrite !u8_lxor; rewrite !gf2_double_xtime by bytes_side;
            rewrite !xtime_lxor by bytes_side; rewrite ?u8_lxor;
            rewrite !u8_id by bytes_side; xor_bits | ]).
  reflexivity.
Qed.

(** ** Little-endian groups of bytes *)

Lemma le_encode_length (n : nat) (x : Z) : length (le_encode n x) = n.
Proof. revert x. induction n as [|n IH]; intros x; simpl; [reflexivity|]. rewrite IH. reflexivity. Qed.

Lemma le_encode_bytes (n : nat) (x : Z) : Forall is_u8 (le_encode n x).
Proof.
  revert x. induction n as [|n IH]; intros x; simpl; constructor.
  - apply (u8_range x).
  - apply IH.
Qed.

Lemma le_decode_range (bs : list Z) :
  Forall is_u8 bs -> 0 <= le_decode bs < 256 ^ Z.of_nat (length bs).
Proof.
  induction 1 as [|b bs Hb _ IH]; simpl le_decode; simpl length.
  - simpl. lia.
  - rewrite Nat2Z.inj_succ, Z.pow_succ_r by lia. unfold is_u8 in Hb. lia.
Qed.

Lemma le_decode_app (a b : list Z) :
  le_decode (a ++ b) = le_decode a + 256 ^ Z.of_nat (length a) * le_decode b.
Proof.
  induction a as [|x a IH]; simpl le_decode; simpl length.
  - simpl. lia.
  - rewrite IH, Nat2Z.inj_succ, Z.pow_succ_r by lia. ring.
Qed.

Lemma le_encode_decode_above (bs : list Z) (y : Z) :
  Forall is_u8 bs ->
  le_encode (length bs) (le_decode bs + 256 ^ Z.of_nat (length bs) * y) = bs.
Proof.
  induction 1 as [|b bs Hb _ IH]; simpl le_decode; simpl length; [reflexivity|].
  rewrite Nat2Z.inj_succ, Z.pow_succ_r by lia. simpl le_encode.
  unfold is_u8 in Hb.
  replace (b + 256 * le_decode bs + 256 * 256 ^ Z.of_nat (length bs) * y)
    with (b + (le_decode bs + 256 ^ Z.of_nat (length bs) * y) * 256) by ring.
  rewrite Z.mod_add, Z.div_add, Z.mod_small, Z.div_small, Z.add_0_l by lia.
  rewrite IH. reflexivity.
Qed.

(** Encoding what was decoded gives the bytes back, *)
Lemma le_encode_decode (bs : list Z) :
  Forall is_u8 bs -> le_encode (length bs) (le_decode bs) = bs.
Proof.
  intros H. pose proof (le_encode_decode_above bs 0 H) as E.
  rewrite Z.mul_0_r, Z.add_0_r in E. exact E.
Qed.

(** and decoding what was encoded gives the integer modulo [256^n]. *)
Lemma le_decode_encode (n : nat) (x : Z) :
  le_decode (le_encode n x) = x mod 256 ^ Z.of_nat n.
Proof.
  revert x. induction n as [|n IH]; intros x.
  - simpl. rewrite Z.mod_1_r. reflexivity.
  - simpl le_encode. simpl le_decode. rewrite IH, Nat2Z.inj_succ, Z.pow_succ_r by lia.
    rewrite Z.rem_mul_r by lia. reflexivity.
Qed.

Lemma le_encode_mod (n : nat) (x : Z) :
  le_encode n (x mod 256 ^ Z.of_nat n) = le_encode n x.
Proof.
  rewrite <- le_decode_encode.
  rewrite <- (le_encode_length n x) at 1.
  apply le_encode_decode, le_encode_bytes.
Qed.

Lemma le_encode_app (n m : nat) (x : Z) :
  le_encode (n + m) x = le_encode n x ++ le_encode m (x / 256 ^ Z.of_nat n).
Proof.
  revert x. induction n as [|n IH]; intros x.
  - simpl. rewrite Z.div_1_r. reflexivity.
  - simpl. rewrite IH. f_equal. f_equal. f_equal.
    change (Z.pos (Pos.of_succ_nat n)) with (Z.of_nat (S n)).
    rewrite Nat2Z.inj_succ, Z.pow_succ_r by lia.
    rewrite Z.div_div by lia. reflexivity.
Qed.

Lemma u64_encode (x : Z) : le_encode 8 (u64 x) = le_encode 8 x.
Proof. apply (le_encode_mod 8 x). Qed.

(** ** Well-formed vectors *)

Lemma bytes_okb_spec (n : nat) (v : list Z) : bytes_okb n v = true -> bytes_ok n v.
Proof.
  unfold bytes_okb, bytes_ok. intros H.
  apply andb_true_iff in H. destruct H as [Hlen Hall].
  split; [apply Nat.eqb_eq; exact Hlen|].
  apply Forall_forall. intros x Hx.
  rewrite forallb_forall in Hall. specialize (Hall x).
  unfold is_u8. rewrite <- list_elem_of_In in Hall. specialize (Hall Hx). lia.
Qed.

Lemma bytes_ok_app (n m : nat) (a b : list Z) :
  bytes_ok n a -> bytes_ok m b -> bytes_ok (n + m) (a ++ b).
Proof.
  intros [Ha1 Ha2] [Hb1 Hb2]. split.
  - rewrite length_app. lia.
  - apply Forall_app. split; assumption.
Qed.

Lemma bytes_ok_take (n m : nat) (v : list Z) :
  bytes_ok n v -> (m <= n)%nat -> bytes_ok m (take m v).
Proof.
  intros [H1 H2] Hm. split.
  - rewrite length_take. lia.
  - apply Forall_take. exact H2.
Qed.

Lemma bytes_ok_drop (n m : nat) (v : list Z) :
  bytes_ok n v -> bytes_ok (n - m) (drop m v).
Proof.
  intros [H1 H2]. split.
  - rewrite length_drop. lia.
  - apply Forall_drop. exact H2.
Qed.

Lemma bytes_ok_encode (n : nat) (x : Z) : bytes_ok n (le_encode n x).
Proof. split; [apply le_encode_length | apply le_encode_bytes]. Qed.

(** The AES round emulation answers sixteen bytes, whatever it is given. *)
Lemma aesenc_ok (S K : list Z) : bytes_ok 16 (_sz_emulate_aesenc_si128_serial S K).
Proof.
  unfold _sz_emulate_aesenc_si128_serial.
  set (state_2d := fold_left mix_columns_step _ _). clearbody state_2d.
  unfold set_u8s, uninitialized. cbn [seq fold_left replicate].
  split; [reflexivity|].
  cbn. repeat constructor; apply u8_range.
Qed.

(** On well-formed blocks the emulation is the standard round. *)
Lemma aesenc_refines (S K : list Z) :
  bytes_ok 16 S -> bytes_ok 16 K ->
  _sz_emulate_aesenc_si128_serial S K = AES.round S K.
Proof.
  intros [HlenS HS] HK.
  do 17 (destruct S as [|? S]; try discriminate HlenS).
  apply aesenc_16; assumption.
Qed.

(** ** Lanes *)

(** The [u64s] view of a block reads its lanes. *)
Lemma u64s_lane0 (v : list Z) : bytes_ok 16 v -> u64s v 0 = lane0 v.
Proof.
  intros [Hlen Hv]. unfold u64s, lane0. simpl drop.
  rewrite <- (take_drop 8 v) at 2. rewrite le_decode_app.
  rewrite length_take, Hlen. change (256 ^ Z.of_nat (8 `min` 16)) with (2 ^ 64).
  rewrite Z.mul_comm, Z.mod_add by lia.
  symmetry. apply Z.mod_small.
  pose proof (le_decode_range (take 8 v) (Forall_take _ 8 _ Hv)) as H.
  rewrite length_take, Hlen in H. exact H.
Qed.

Lemma u64s_lane1 (v : list Z) : bytes_ok 16 v -> u64s v 1 = lane1 v.
Proof.
  intros [Hlen Hv]. unfold u64s, lane1. simpl Nat.mul.
  rewrite <- (take_drop 8 v) at 2. rewrite le_decode_app.
  rewrite length_take, Hlen. change (256 ^ Z.of_nat (8 `min` 16)) with (2 ^ 64).
  pose proof (le_decode_range (take 8 v) (Forall_take _ 8 _ Hv)) as H.
  rewrite length_take, Hlen in H. change (256 ^ Z.of_nat (8 `min` 16)) with (2 ^ 64) in H.
  rewrite Z.mul_comm, Z.div_add, Z.div_small by lia.
  rewrite take_ge; [reflexivity|]. rewrite length_drop. lia.
Qed.

Lemma block_of_lanes_split (lo hi : Z) :
  block_of_lanes lo hi = le_encode 8 lo ++ le_encode 8 hi.
Proof.
  unfold block_of_lanes. rewrite (le_encode_app 8 8).
  change (256 ^ Z.of_nat 8) with (2 ^ 64).
  f_equal.
  - rewrite <- (le_encode_mod 8). change (256 ^ Z.of_nat 8) with (2 ^ 64).
    rewrite Z.mul_comm, Z.mod_add, Z.mod_mod by lia. apply (le_encode_mod 8).
  - rewrite Z.mul_comm, Z.div_add by lia.
    rewrite Z.div_small by (apply Z.mod_pos_bound; lia).
    simpl Z.add. apply (le_encode_mod 8).
Qed.

Lemma lane0_block (lo hi : Z) : lane0 (block_of_lanes lo hi) = lo mod 2 ^ 64.
Proof.
  unfold lane0, block_of_lanes. rewrite le_decode_encode.
  change (256 ^ Z.of_nat 16) with (2 ^ 64 * 2 ^ 64).
  pose proof (Z.mod_pos_bound lo (2 ^ 64)). pose proof (Z.mod_pos_bound hi (2 ^ 64)).
  rewrite (Z.mod_small (_ + _)) by nia.
  rewrite Z.mul_comm, Z.mod_add, Z.mod_mod by lia. reflexivity.
Qed.

Lemma lane1_block (lo hi : Z) : lane1 (block_of_lanes lo hi) = hi mod 2 ^ 64.
Proof.
  unfold lane1, block_of_lanes. rewrite le_decode_encode.
  change (256 ^ Z.of_nat 16) with (2 ^ 64 * 2 ^ 64).
  pose proof (Z.mod_pos_bound lo (2 ^ 64)). pose proof (Z.mod_pos_bound hi (2 ^ 64)).
  rewrite (Z.mod_small (_ + _)) by nia.
  rewrite Z.mul_comm, Z.div_add, Z.div_small by lia. reflexivity.
Qed.

(** Writing lane 0 of a block is the lane-wise sum with [(x, 0)]. *)
Lemma set_lane0_add (key : list Z) (x : Z) :
  bytes_ok 16 key ->
  set_u64s key 0 (u64 (u64s key 0 + x))
  = add_lanes key (block_of_lanes x 0).
Proof.
  intros Hkey. unfold add_lanes.
  rewrite lane0_block, lane1_block, block_of_lanes_split.
  unfold set_u64s. change (take (8 * 0) key) with (@nil Z).
  change (8 * 0 + 8)%nat with 8%nat. rewrite app_nil_l.
  rewrite u64s_lane0 by exact Hkey. rewrite u64_encode.
  apply f_equal2.
  - rewrite <- (le_encode_mod 8 (_ + _ mod _)).
    change (256 ^ Z.of_nat 8) with (2 ^ 64).
    rewrite Zplus_mod_idemp_r. symmetry. apply (le_encode_mod 8).
  - rewrite Z.mod_0_l, Z.add_0_r by lia. rewrite <- u64s_lane1 by exact Hkey.
    unfold u64s. change (8 * 1)%nat with 8%nat.
    destruct Hkey as [Hlen Hkey].
    rewrite take_ge by (rewrite length_drop; lia).
    assert (H8 : length (drop 8 key) = 8%nat) by (rewrite length_drop; lia).
    rewrite <- H8 at 2. symmetry. apply le_encode_decode, Forall_drop, Hkey.
Qed.

(** ** The byte checksum *)

(** The loop of the checksum is the naive accumulator, *)
Lemma bytesum_naive (text : list Z) (acc : Z) :
  Forall is_u8 text ->
  fold_left (fun bytesum text_u8 => u64 (bytesum + u8 text_u8)) text acc
  = naive_accumulator acc text.
Proof.
  intros H. revert acc. induction H as [|x text Hx _ IH]; intros acc; simpl.
  - reflexivity.
  - rewrite u8_id by exact Hx. apply IH.
Qed.

(** which does not wrap while the sum stays below [2^64]. *)
Lemma naive_exact (b : list Z) (acc : Z) :
  Forall is_u8 b -> 0 <= acc -> acc + 255 * Z.of_nat (length b) < 2 ^ 64 ->
  naive_accumulator acc b = acc + byte_total b.
Proof.
  intros H. revert acc. induction H as [|x b Hx _ IH]; intros acc Hacc Hbound.
  - simpl. lia.
  - simpl naive_accumulator. simpl byte_total. simpl length in Hbound.
    unfold is_u8 in Hx. rewrite Z.mod_small by lia.
    rewrite IH by lia. lia.
Qed.

(** ** Loops *)

(** The rule of total correctness: an invariant kept by the body and a
    measure that the body decreases, with fuel for the measure, give a run
    that ends in a state where the invariant holds and the condition fails. *)
Lemma while_rule {S : Type} (I : S -> Prop) (measure : S -> nat)
    (cond : S -> bool) (body : S -> S) :
  (forall s, I s -> cond s = true ->
             I (body s) /\ (measure (body s) < measure s)%nat) ->
  forall fuel s, I s -> (measure s <= fuel)%nat ->
  exists s', while fuel cond body s = Some s' /\ I s' /\ cond s' = false.
Proof.
  intros Hstep. induction fuel as [|fuel IH]; intros s Hs Hfuel; simpl.
  - destruct (cond s) eqn:Hc.
    + destruct (Hstep s Hs Hc) as [_ Hlt]. lia.
    + exists s. auto.
  - destruct (cond s) eqn:Hc.
    + destruct (Hstep s Hs Hc) as [Hbody Hlt]. apply IH; [exact Hbody | lia].
    + exists s. auto.
Qed.

Lemma while_false {S : Type} (fuel : nat) (cond : S -> bool) (body : S -> S) (s : S) :
  cond s = false -> while fuel cond body s = Some s.
Proof. intros H. destruct fuel; simpl; rewrite H; reflexivity. Qed.

(** ** The input buffer of the wide state *)

Lemma zero_u64s_zero (v : list Z) :
  length v = 64%nat -> zero_u64s v = replicate 64 0.
Proof.
  intros H. do 65 (destruct v as [|? v]; try discriminate H). reflexivity.
Qed.

Lemma copy_into_ins_text (n : nat) (ins : list Z) (p : nat) (text : list Z) :
  snd (copy_into_ins n ins p text) = drop n text.
Proof.
  revert ins p text. induction n as [|n IH]; intros ins p text; simpl.
  - reflexivity.
  - rewrite IH. destruct text; simpl; [destruct n|]; reflexivity.
Qed.

Lemma copy_into_ins_length (n : nat) (ins : list Z) (p : nat) (text : list Z) :
  length (fst (copy_into_ins n ins p text)) = length ins.
Proof.
  revert ins p text. induction n as [|n IH]; intros ins p text; simpl.
  - reflexivity.
  - rewrite IH. unfold set_u8s. apply length_insert.
Qed.

Lemma copy_into_ins_outside (n : nat) (ins : list Z) (p : nat) (text : list Z) (i : nat) :
  (i < p \/ p + n <= i)%nat ->
  u8s (fst (copy_into_ins n ins p text)) i = u8s ins i.
Proof.
  revert ins p text. induction n as [|n IH]; intros ins p text Hi; simpl.
  - reflexivity.
  - rewrite IH by lia. unfold u8s, set_u8s.
    rewrite !nth_lookup. rewrite list_lookup_insert_ne by lia. reflexivity.
Qed.

Lemma u8s_replicate_zero (n i : nat) : u8s (replicate n 0) i = 0.
Proof.
  unfold u8s. rewrite nth_lookup.
  destruct (replicate n 0 !! i) as [x|] eqn:E; [|reflexivity].
  apply lookup_replicate in E. simpl. tauto.
Qed.

Lemma init_invariant (seed : Z) : ins_invariant (sz_hash_state_init_serial seed).
Proof.
  unfold ins_invariant, sz_hash_state_init_serial. cbn [ins ins_length].
  rewrite zero_u64s_zero by reflexivity.
  split; [reflexivity|]. split; [unfold is_u64; lia|].
  intros i _. apply u8s_replicate_zero.
Qed.

Lemma min_of_two_spec (x y : Z) : sz_min_of_two x y = Z.min x y.
Proof. unfold sz_min_of_two. destruct (x <? y) eqn:E; lia. Qed.

(** One turn of the streaming loop. *)
Lemma stream_step_spec (v : stream_vars) :
  ins_invariant (sv_state v) -> 0 < sv_length v < 2 ^ 64 ->
  let to_copy := Z.min (sv_length v) (64 - ins_length (sv_state v) mod 64) in
  let v' := stream_step v in
  0 < to_copy /\
  ins_invariant (sv_state v') /\
  ins_length (sv_state v') = u64 (ins_length (sv_state v) + to_copy) /\
  sv_length v' = sv_length v - to_copy /\
  sv_text v' = drop (Z.to_nat to_copy) (sv_text v).
Proof.
  intros (Hlen & Hcount & Hzero) Hpending. cbv zeta.
  pose proof (Z.mod_pos_bound (ins_length (sv_state v)) 64 ltac:(lia)) as Hp.
  unfold stream_step. rewrite min_of_two_spec.
  set (p := ins_length (sv_state v) mod 64) in *.
  set (to_copy := Z.min (sv_length v) (64 - p)).
  assert (Hto : 0 < to_copy <= 64 - p) by lia.
  destruct (copy_into_ins _ _ _ _) as [filled text'] eqn:Hcopy.
  cbn [ins set_ins_length] in Hcopy.
  pose proof (copy_into_ins_length (Z.to_nat to_copy) (ins (sv_state v)) (Z.to_nat p) (sv_text v)) as Hfl.
  pose proof (copy_into_ins_text (Z.to_nat to_copy) (ins (sv_state v)) (Z.to_nat p) (sv_text v)) as Hft.
  pose proof (copy_into_ins_outside (Z.to_nat to_copy) (ins (sv_state v)) (Z.to_nat p) (sv_text v)) as Hfo.
  rewrite Hcopy in Hfl, Hft, Hfo. cbn [fst snd] in Hfl, Hft, Hfo.
  assert (Hnew : u64 (ins_length (sv_state v) + to_copy) mod 64 = (p + to_copy) mod 64).
  { unfold u64. change (2 ^ 64) with (64 * 2 ^ 58).
    rewrite Z.rem_mul_r by lia. rewrite Z.mul_comm, Z.mod_add by lia.
    rewrite Z.mod_mod by lia. unfold p. rewrite Zplus_mod_idemp_l. reflexivity. }
  split; [lia|].
  unfold ins_invariant.
  destruct (p + to_copy =? 64) eqn:Hfill;
    cbn [sv_state sv_length sv_text ins ins_length set_ins set_ins_length
         _sz_hash_state_update_serial update_lane set_sum set_aes].
  - rewrite zero_u64s_zero by exact (eq_trans Hfl Hlen).
    repeat split.
    + apply Z.mod_pos_bound. lia.
    + apply Z.mod_pos_bound. lia.
    + intros i _. apply u8s_replicate_zero.
    + unfold u64. apply Z.mod_small. lia.
    + exact Hft.
  - repeat split.
    + lia.
    + apply Z.mod_pos_bound. lia.
    + apply Z.mod_pos_bound. lia.
    + intros i Hi. rewrite Hnew in Hi.
      rewrite Z.mod_small in Hi by lia.
      rewrite Hfo by lia. apply Hzero. lia.
    + unfold u64. apply Z.mod_small. lia.
    + exact Hft.
Qed.

(** The streaming loop runs to its end, keeps the invariant of the buffer
    and counts the bytes it is given. *)
Lemma stream_loop_spec (state : sz_hash_state_t) (text : list Z) (n : Z) :
  ins_invariant state -> is_u64 n ->
  exists v, stream_loop state text n = Some v /\
            ins_invariant (sv_state v) /\
            ins_length (sv_state v) = u64 (ins_length state + n) /\
            sv_length v = 0.
Proof.
  intros Hinv Hn. unfold stream_loop.
  destruct (while_rule
    (fun v => ins_invariant (sv_state v) /\ 0 <= sv_length v <= n /\
              ins_length (sv_state v) = u64 (ins_length state + (n - sv_length v)))
    (fun v => Z.to_nat (sv_length v))
    (fun v => negb (sv_length v =? 0)) stream_step) with
    (fuel := Z.to_nat n)
    (s := {| sv_state := state; sv_text := text; sv_length := n |})
    as (v & Hrun & (Hv & Hrange & Hcount) & Hexit).
  - intros v (Hv & Hrange & Hcount) Hcond. unfold is_u64 in Hn.
    destruct (stream_step_spec v Hv ltac:(lia)) as (Hto & Hv' & Hcount' & Hlen' & _).
    set (c := Z.min _ _) in *.
    assert (Hc : c <= sv_length v) by lia. clearbody c.
    split; [|lia]. split; [exact Hv'|]. split; [lia|].
    rewrite Hcount', Hcount, Hlen'. unfold u64.
    rewrite Zplus_mod_idemp_l. apply (f_equal2 Z.modulo); [lia | reflexivity].
  - cbn [sv_state sv_length]. split; [exact Hinv|].
    split; [unfold is_u64 in Hn; lia|].
    rewrite Z.sub_diag, Z.add_0_r. destruct Hinv as (_ & Hc & _).
    unfold u64. symmetry. apply Z.mod_small. exact Hc.
  - cbn [sv_length]. lia.
  - exists v. split; [exact Hrun|]. split; [exact Hv|].
    split; [|lia]. rewrite Hcount. unfold u64.
    apply (f_equal2 Z.modulo); [lia | reflexivity].
Qed.

Lemma stream_total (state : sz_hash_state_t) (text : list Z) (n : Z) :
  ins_invariant state -> is_u64 n ->
  exists state', sz_hash_state_stream_serial state text n = Some state' /\
                 ins_invariant state' /\
                 ins_length state' = u64 (ins_length state + n).
Proof.
  intros Hinv Hn.
  destruct (stream_loop_spec state text n Hinv Hn) as (v & Hrun & Hv & Hcount & _).
  exists (sv_state v). unfold sz_hash_state_stream_serial. rewrite Hrun.
  split; [reflexivity|]. split; [exact Hv | exact Hcount].
Qed.

(** Every reachable state keeps the invariant of the buffer and counts the
    bytes streamed, modulo [2^64]. *)
Lemma reachable_invariant (state : sz_hash_state_t) (total : Z) :
  reachable state total ->
  ins_invariant state /\ 0 <= total /\ ins_length state = u64 total.
Proof.
  induction 1 as [seed | state state' total text n _ (Hinv & Htotal & Hcount) Hn Hbuf Hrun].
  - split; [apply init_invariant|]. split; [lia | reflexivity].
  - destruct (stream_total state text n Hinv Hn) as (state'' & Hrun' & Hinv' & Hcount').
    rewrite Hrun in Hrun'. injection Hrun' as <-.
    split; [exact Hinv'|]. split; [unfold is_u64 in Hn; lia|].
    rewrite Hcount', Hcount. unfold u64. rewrite Zplus_mod_idemp_l. reflexivity.
Qed.

(** ** The generator *)

Lemma set_u64s_low_high (x y : Z) :
  set_u64s (set_u64s (uninitialized 16) 0 x) 1 y = le_encode 8 x ++ le_encode 8 y.
Proof. reflexivity. Qed.

Lemma set_u64s_high_low (x y : Z) :
  set_u64s (set_u64s (uninitialized 16) 1 y) 0 x = le_encode 8 x ++ le_encode 8 y.
Proof. reflexivity. Qed.

Lemma pi_vec_lanes (k : Z) :
  0 <= k < 4 ->
  u64s (vecs pi_bytes (Z.to_nat k)) 0 = pi_at (Z.to_nat (2 * k)) /\
  u64s (vecs pi_bytes (Z.to_nat k)) 1 = pi_at (Z.to_nat (2 * k + 1)).
Proof.
  intros Hk.
  assert (H : k = 0 \/ k = 1 \/ k = 2 \/ k = 3) by lia.
  destruct H as [-> | [-> | [-> | ->]]]; split; vm_compute; reflexivity.
Qed.

(** The block of the loop is the block of the specification. *)
Lemma generated_block_refines (nonce lane_index : Z) :
  generated_block nonce lane_index = spec_generate_block nonce lane_index.
Proof.
  unfold generated_block, spec_generate_block.
  pose proof (Z.mod_pos_bound lane_index 4 ltac:(lia)) as Hk.
  destruct (pi_vec_lanes (lane_index mod 4) Hk) as [-> ->].
  rewrite set_u64s_high_low, set_u64s_low_high, !block_of_lanes_split, u64_encode.
  apply aesenc_refines; apply (bytes_ok_app 8 8); apply bytes_ok_encode.
Qed.

Lemma generated_block_ok (nonce lane_index : Z) :
  bytes_ok 16 (generated_block nonce lane_index).
Proof. apply aesenc_ok. Qed.

Lemma exported_none (g : list Z) (a : nat) (text : sz_ptr_t) :
  exported g a text 0 text.
Proof.
  constructor.
  - lia.
  - simpl. rewrite app_nil_r. reflexivity.
  - reflexivity.
  - reflexivity.
  - intros j Hj. lia.
Qed.

(** The export loop stores [min(m, n)] bytes and shortens [n] by as many. *)
Lemma export_generated_spec (m a : nat) (g : list Z) (text : sz_ptr_t) (n : Z) :
  is_u64 n ->
  let count := Nat.min m (Z.to_nat n) in
  exists text', export_generated (seq a m) g text n = (text', n - Z.of_nat count) /\
                exported g a text count text'.
Proof.
  revert a text n. induction m as [|m IH]; intros a text n Hn; cbv zeta.
  - exists text. simpl. rewrite Z.sub_0_r. split; [reflexivity|].
    apply exported_none.
  - simpl export_generated. destruct (n =? 0) eqn:Hz; simpl negb; cbv iota.
    + replace (Nat.min (S m) (Z.to_nat n)) with O by lia.
      exists text. simpl Z.of_nat. rewrite Z.sub_0_r. split; [reflexivity|].
      apply exported_none.
    + unfold is_u64 in Hn.
      assert (Hn1 : u64 (n - 1) = n - 1) by (apply Z.mod_small; lia).
      rewrite Hn1.
      destruct (IH (S a) (store text (u8s g a)) (n - 1)) as (text' & Hrun & Hexp);
        [unfold is_u64; lia|].
      exists text'.
      replace (Nat.min (S m) (Z.to_nat n)) with (S (Nat.min m (Z.to_nat (n - 1)))) by lia.
      set (count := Nat.min m (Z.to_nat (n - 1))) in *.
      split; [rewrite Hrun; f_equal; lia|].
      destruct Hexp as [Hpos Hwr Hlen Hout Hin]. cbn [store position written buffer] in *.
      constructor.
      * lia.
      * rewrite Hwr, <- app_assoc. reflexivity.
      * rewrite Hlen. apply length_insert.
      * intros j Hj. rewrite Hout by lia. apply list_lookup_insert_ne. lia.
      * intros j Hj Hjlen. destruct (decide (j = position text)) as [->|Hne].
        -- unfold u8s at 1. rewrite nth_lookup, Hout by lia.
           rewrite list_lookup_insert_eq by lia. simpl.
           rewrite Nat.sub_diag, Nat.add_0_r. reflexivity.
        -- rewrite Hin; [ | lia | rewrite length_insert; lia ].
           do 2 f_equal. lia.
Qed.

Lemma u8s_is_u8 (v : list Z) (i : nat) : Forall is_u8 v -> is_u8 (u8s v i).
Proof.
  intros H. unfold u8s. rewrite nth_lookup.
  destruct (v !! i) as [x|] eqn:E; simpl.
  - rewrite Forall_lookup in H. exact (H i x E).
  - unfold is_u8. lia.
Qed.

Lemma u8s_lookup (v w : list Z) (i j : nat) : v !! i = w !! j -> u8s v i = u8s w j.
Proof. intros H. unfold u8s. rewrite !nth_lookup, H. reflexivity. Qed.

Section Generator.

(** A request of [total] bytes with [nonce], over the caller's [memory]. *)
Variables (memory : list Z) (total nonce : Z).
Hypothesis total_fits : is_u64 total.

(** One turn of the loop keeps the invariant and shortens what is left. *)
Lemma generate_step_spec (v : generate_vars) :
  generating memory total nonce v -> gv_length v <> 0 ->
  generating memory total nonce (generate_step nonce v) /\
  (Z.to_nat (gv_length (generate_step nonce v)) < Z.to_nat (gv_length v))%nat.
Proof.
  intros [Hlen Hpos Hwr Hsize Hframe Hlane Hbytes] Hnz.
  pose proof total_fits as Htotal. unfold is_u64 in Htotal.
  specialize (Hlane Hnz).
  unfold generate_step. cbv zeta.
  change (_sz_emulate_aesenc_si128_serial _ _)
    with (generated_block nonce (gv_lane_index v)).
  set (g := generated_block nonce (gv_lane_index v)).
  destruct (export_generated_spec 16 0 g (gv_text v) (gv_length v)) as (text' & Hrun & Hexp);
    [unfold is_u64; lia|].
  rewrite Hrun. clear Hrun.
  set (count := Nat.min 16 (Z.to_nat (gv_length v))) in *.
  assert (Hcount : (1 <= count <= 16)%nat) by lia.
  destruct Hexp as [Epos Ewr Elen Eout Ein].
  split; [|cbn [gv_length]; lia].
  constructor; cbn [gv_text gv_length gv_lane_index].
  - lia.
  - lia.
  - rewrite Ewr, Hwr, Epos. symmetry. apply seq_app.
  - lia.
  - intros j Hj. rewrite Eout by lia. apply Hframe. lia.
  - intros Hmore. unfold u64. rewrite Z.mod_small by lia. lia.
  - intros j Hj Hjm. destruct (Nat.lt_ge_cases j (position (gv_text v))) as [Hold | Hnew].
    + rewrite (u8s_lookup _ (buffer (gv_text v)) j j) by (apply Eout; lia).
      apply Hbytes; assumption.
    + rewrite Ein by lia. rewrite u8_id by (apply u8s_is_u8, generated_block_ok).
      simpl Nat.add.
      replace (Z.of_nat j / 16) with (gv_lane_index v)
        by (Z.div_mod_to_equations; lia).
      f_equal.
      assert (Hj16 : Z.of_nat (j mod 16) = Z.of_nat j mod 16)
        by (rewrite Nat2Z.inj_mod; reflexivity).
      apply Nat2Z.inj. rewrite Hj16, Nat2Z.inj_sub by lia.
      Z.div_mod_to_equations; lia.
Qed.

(** The generator ends, having stored exactly the bytes asked for. *)
Lemma generate_spec :
  exists text', sz_generate_serial (pointer_to memory) total nonce = Some text' /\
                position text' = Z.to_nat total /\
                written text' = seq 0 (Z.to_nat total) /\
                length (buffer text') = length memory /\
                (forall j, (Z.to_nat total <= j)%nat -> buffer text' !! j = memory !! j) /\
                (forall j, (j < Z.to_nat total)%nat -> (j < length memory)%nat ->
                           u8s (buffer text') j
                           = u8s (generated_block nonce (Z.of_nat j / 16)) (j mod 16)).
Proof.
  pose proof total_fits as Htotal. unfold is_u64 in Htotal. unfold sz_generate_serial.
  destruct (while_rule (generating memory total nonce)
              (fun v => Z.to_nat (gv_length v))
              (fun v => negb (gv_length v =? 0)) (generate_step nonce)) with
    (fuel := Z.to_nat total)
    (s := {| gv_text := pointer_to memory; gv_length := total; gv_lane_index := 0 |})
    as (v & Hrun & Hv & Hexit).
  - intros v Hv Hcond. apply generate_step_spec; [exact Hv | lia].
  - constructor; cbn [gv_text gv_length gv_lane_index pointer_to position written buffer];
      try reflexivity; try lia.
  - cbn [gv_length]. lia.
  - rewrite Hrun. exists (gv_text v). destruct Hv as [Hlen Hpos Hwr Hsize Hframe _ Hbytes].
    assert (Hp : position (gv_text v) = Z.to_nat total) by lia.
    rewrite <- Hp. repeat split; assumption.
Qed.

End Generator.

(** ** Shifting a block within its register *)

Lemma le_decode_zeros (n : nat) : le_decode (replicate n 0) = 0.
Proof. induction n as [|n IH]; simpl; [reflexivity|]. rewrite IH. reflexivity. Qed.

Lemma le_encode_decode_pad (bs : list Z) (n : nat) :
  Forall is_u8 bs -> (length bs <= n)%nat ->
  le_encode n (le_decode bs) = bs ++ replicate (n - length bs) 0.
Proof.
  intros Hbs Hn.
  assert (Hpad : le_decode bs = le_decode (bs ++ replicate (n - length bs) 0)).
  { rewrite le_decode_app, le_decode_zeros. lia. }
  rewrite Hpad.
  assert (Hlen : length (bs ++ replicate (n - length bs) 0) = n).
  { rewrite length_app, length_replicate. lia. }
  rewrite <- Hlen at 1. apply le_encode_decode.
  apply Forall_app. split; [exact Hbs|].
  apply Forall_replicate. unfold is_u8. lia.
Qed.

Lemma le_decode_shiftr (bs : list Z) (k : nat) :
  Forall is_u8 bs ->
  Z.shiftr (le_decode bs) (8 * Z.of_nat k) = le_decode (drop k bs).
Proof.
  intros Hbs. rewrite Z.shiftr_div_pow2 by lia.
  replace (2 ^ (8 * Z.of_nat k)) with (256 ^ Z.of_nat k)
    by (change 256 with (2 ^ 8); rewrite <- Z.pow_mul_r by lia; reflexivity).
  rewrite <- (take_drop k bs) at 1. rewrite le_decode_app.
  pose proof (le_decode_range (take k bs) (Forall_take _ k _ Hbs)) as Hlow.
  destruct (Nat.le_gt_cases k (length bs)) as [Hk | Hk].
  - rewrite length_take_le in * by exact Hk.
    rewrite Z.mul_comm, Z.div_add by lia. rewrite Z.div_small by lia. lia.
  - rewrite (drop_ge bs k) by lia. simpl le_decode. rewrite Z.mul_0_r, Z.add_0_r.
    apply Z.div_small. rewrite length_take in Hlow.
    split; [lia|]. eapply Z.lt_le_trans; [apply Hlow|].
    apply Z.pow_le_mono_r; lia.
Qed.

Lemma lor_disjoint (a b k : Z) :
  0 <= k -> 0 <= a < 2 ^ k -> Z.lor a (Z.shiftl b k) = a + b * 2 ^ k.
Proof.
  intros Hk Ha.
  assert (Hdisj : Z.land a (Z.shiftl b k) = 0).
  { apply Z.bits_inj'. intros n Hn. rewrite Z.land_spec, Z.bits_0.
    destruct (Z.lt_ge_cases n k) as [Hlt | Hge].
    - rewrite Z.shiftl_spec_low by exact Hlt. apply andb_false_r.
    - rewrite <- (Z.mod_small a (2 ^ k)) by exact Ha.
      rewrite Z.mod_pow2_bits_high by lia. reflexivity. }
  rewrite <- Z.lxor_lor by exact Hdisj.
  rewrite <- Z.add_nocarry_lxor by exact Hdisj.
  rewrite Z.shiftl_mul_pow2 by exact Hk. reflexivity.
Qed.

Lemma set_u64s_both (v : list Z) (x y : Z) :
  length v = 16%nat ->
  set_u64s (set_u64s v 0 x) 1 y = le_encode 8 x ++ le_encode 8 y.
Proof.
  intros Hlen. do 17 (destruct v as [|? v]; try discriminate Hlen). reflexivity.
Qed.

Lemma set_u64s_0_lane1 (v : list Z) (x : Z) :
  length v = 16%nat -> u64s (set_u64s v 0 x) 1 = u64s v 1.
Proof.
  intros Hlen. do 17 (destruct v as [|? v]; try discriminate Hlen). reflexivity.
Qed.

(** The two 64-bit shifts with their carry move the sixteen bytes down by
    [s] places and fill with zeros. *)
Lemma shift_in_register_spec (v : list Z) (s : nat) :
  bytes_ok 16 v -> (s < 16)%nat ->
  _sz_hash_shift_in_register_serial v (Z.of_nat s) = drop s v ++ replicate s 0.
Proof.
  intros [Hlen Hv] Hs. unfold _sz_hash_shift_in_register_serial.
  assert (HL : Forall is_u8 (take 8 v)) by (apply Forall_take; exact Hv).
  assert (HH : Forall is_u8 (drop 8 v)) by (apply Forall_drop; exact Hv).
  assert (HlenL : length (take 8 v) = 8%nat) by (rewrite length_take; lia).
  assert (HlenH : length (drop 8 v) = 8%nat) by (rewrite length_drop; lia).
  assert (E0 : u64s v 0 = le_decode (take 8 v)) by reflexivity.
  assert (E1 : u64s v 1 = le_decode (drop 8 v)).
  { unfold u64s. change (8 * 1)%nat with 8%nat. rewrite take_ge by lia. reflexivity. }
  destruct (Z.of_nat s >=? 8) eqn:Hhigh.
  - rewrite set_u64s_both by exact Hlen. rewrite E1.
    replace ((Z.of_nat s - 8) * 8) with (8 * Z.of_nat (s - 8)) by lia.
    rewrite le_decode_shiftr by exact HH.
    rewrite le_encode_decode_pad by (try apply Forall_drop; try rewrite length_drop; trivial; lia).
    rewrite !length_drop, Hlen, drop_drop.
    change (le_encode 8 0) with (replicate 8 0).
    rewrite <- app_assoc, <- replicate_add.
    f_equal; [f_equal; lia | f_equal; lia].
  - destruct (Z.of_nat s =? 0) eqn:Hzero; cbn [negb].
    + replace s with O by lia. rewrite drop_0, app_nil_r. reflexivity.
    + rewrite set_u64s_0_lane1 by exact Hlen.
      rewrite set_u64s_both by exact Hlen. rewrite E0, E1.
      replace (Z.of_nat s * 8) with (8 * Z.of_nat s) by lia.
      rewrite !le_decode_shiftr by assumption.
      rewrite (le_encode_decode_pad (drop s (drop 8 v)))
        by (try apply Forall_drop; try rewrite length_drop; trivial; lia).
      rewrite u64_encode.
      assert (Hx : le_encode 8 (Z.lor (le_decode (drop s (take 8 v)))
                        (Z.shiftl (le_decode (drop 8 v)) ((8 - Z.of_nat s) * 8)))
                   = drop s (take 8 v) ++ take s (drop 8 v)).
      { pose proof (le_decode_range (drop s (take 8 v)) (Forall_drop _ s _ HL)) as Hlow.
        rewrite length_drop, HlenL in Hlow.
        replace (256 ^ Z.of_nat (8 - s)) with (2 ^ ((8 - Z.of_nat s) * 8)) in Hlow
          by (change 256 with (2 ^ 8); rewrite <- Z.pow_mul_r by lia; f_equal; lia).
        rewrite lor_disjoint by lia.
        rewrite <- (take_drop s (drop 8 v)) at 1. rewrite le_decode_app.
        rewrite length_take_le by lia.
        replace (2 ^ ((8 - Z.of_nat s) * 8)) with (256 ^ Z.of_nat (8 - s))
          by (change 256 with (2 ^ 8); rewrite <- Z.pow_mul_r by lia; f_equal; lia).
        rewrite <- (le_encode_mod 8).
        replace ((le_decode (take s (drop 8 v))
                  + 256 ^ Z.of_nat s * le_decode (drop s (drop 8 v))) * 256 ^ Z.of_nat (8 - s))
          with (le_decode (take s (drop 8 v)) * 256 ^ Z.of_nat (8 - s)
                + le_decode (drop s (drop 8 v)) * 256 ^ Z.of_nat 8).
        2:{ replace (256 ^ Z.of_nat 8) with (256 ^ Z.of_nat s * 256 ^ Z.of_nat (8 - s))
              by (rewrite <- Z.pow_add_r by lia; f_equal; lia).
            ring. }
        rewrite Z.add_assoc, Z.mod_add by lia.
        rewrite le_encode_mod.
        assert (Hcat : le_decode (drop s (take 8 v)) +
                       le_decode (take s (drop 8 v)) * 256 ^ Z.of_nat (8 - s)
                       = le_decode (drop s (take 8 v) ++ take s (drop 8 v))).
        { rewrite le_decode_app, length_drop, HlenL. ring. }
        rewrite Hcat.
        assert (Hl8 : length (drop s (take 8 v) ++ take s (drop 8 v)) = 8%nat).
        { rewrite length_app, length_drop, HlenL, length_take, HlenH. lia. }
        rewrite <- Hl8 at 1. apply le_encode_decode.
        apply Forall_app. split; [apply Forall_drop | apply Forall_take]; assumption. }
      rewrite Hx. rewrite length_drop, HlenH.
      rewrite <- !app_assoc. rewrite (app_assoc (take s (drop 8 v))), take_drop.
      rewrite app_assoc. rewrite <- (take_drop 8 v) at 3.
      rewrite drop_app_le by (rewrite HlenL; lia). rewrite <- app_assoc.
      replace (8 - (8 - s))%nat with s by lia. rewrite app_assoc. reflexivity.
Qed.

(** ** Streaming within one block *)

Lemma copy_into_ins_eq (n : nat) (ins : list Z) (p : nat) (text : list Z) :
  (p + n <= length ins)%nat -> (n <= length text)%nat ->
  fst (copy_into_ins n ins p text)
  = take p ins ++ map u8 (take n text) ++ drop (p + n) ins.
Proof.
  revert ins p text. induction n as [|n IH]; intros ins p text Hp Hn.
  - simpl. rewrite Nat.add_0_r, take_drop. reflexivity.
  - destruct text as [|x text]; [simpl in Hn; lia|]. simpl in Hn.
    simpl copy_into_ins. rewrite IH; [ | unfold set_u8s; rewrite length_insert; lia | lia ].
    unfold set_u8s.
    rewrite take_insert_lt by lia. rewrite drop_insert_lt by lia.
    destruct (lookup_lt_is_Some_2 ins p ltac:(lia)) as [y Hy].
    rewrite (take_S_r ins p y Hy).
    rewrite insert_app_r_alt by (rewrite length_take; lia).
    rewrite length_take_le by lia. rewrite Nat.sub_diag. simpl.
    rewrite <- app_assoc. simpl.
    replace (p + S n)%nat with (S (p + n)) by lia. reflexivity.
Qed.

(** Bytes that leave room in the block are copied in one turn of the loop,
    which then ends. *)
Lemma stream_within_block (state : sz_hash_state_t) (text : list Z) (n : Z) :
  0 < n -> ins_length state mod 64 + n < 64 ->
  stream_loop state text n
  = Some {| sv_state :=
              set_ins (set_ins_length state (u64 (ins_length state + n)))
                      (fst (copy_into_ins (Z.to_nat n) (ins state)
                                          (Z.to_nat (ins_length state mod 64)) text));
            sv_text := snd (copy_into_ins (Z.to_nat n) (ins state)
                                          (Z.to_nat (ins_length state mod 64)) text);
            sv_length := 0 |}.
Proof.
  intros Hn Hroom. unfold stream_loop.
  destruct (Z.to_nat n) as [|fuel] eqn:Hfuel; [lia|].
  cbn [while sv_length]. replace (n =? 0) with false by lia. cbn [negb].
  assert (Hstep : stream_step {| sv_state := state; sv_text := text; sv_length := n |}
                  = {| sv_state :=
                         set_ins (set_ins_length state (u64 (ins_length state + n)))
                           (fst (copy_into_ins (S fuel) (ins state)
                                   (Z.to_nat (ins_length state mod 64)) text));
                       sv_text := snd (copy_into_ins (S fuel) (ins state)
                                   (Z.to_nat (ins_length state mod 64)) text);
                       sv_length := 0 |}).
  { unfold stream_step. cbn [sv_state sv_text sv_length].
    rewrite min_of_two_spec. rewrite Z.min_l by lia.
    replace (ins_length state mod 64 + n =? 64) with false by lia.
    rewrite Hfuel. cbn [ins set_ins_length].
    destruct (copy_into_ins _ _ _ _) as [filled text']. cbn [fst snd].
    rewrite Z.sub_diag. reflexivity. }
  rewrite Hstep. apply while_false. reflexivity.
Qed.

Lemma init_is_short (seed : Z) : sz_hash_state_init_serial seed = short_state seed [].
Proof. reflexivity. Qed.

Lemma stream_short (seed : Z) (b c : list Z) :
  (length b + length c < 64)%nat ->
  sz_hash_state_stream_serial (short_state seed b) c (Z.of_nat (length c))
  = Some (short_state seed (b ++ c)).
Proof.
  intros Hroom. destruct c as [|x c].
  { rewrite app_nil_r. reflexivity. }
  set (c' := x :: c) in *.
  unfold sz_hash_state_stream_serial.
  assert (Hp : ins_length (short_state seed b) mod 64 = Z.of_nat (length b)).
  { cbn [short_state ins_length]. apply Z.mod_small. lia. }
  rewrite stream_within_block
    by (rewrite ?Hp; unfold c' in *; simpl length in *; lia).
  cbn [mbind option_bind sv_state]. f_equal.
  rewrite Hp, !Nat2Z.id.
  rewrite copy_into_ins_eq
    by (cbn [short_state ins]; rewrite ?length_app, ?length_map, ?length_replicate; lia).
  unfold short_state, set_ins, set_ins_length. cbn [aes sum ins key ins_length].
  f_equal.
  - rewrite take_app_length' by (rewrite length_map; reflexivity).
    rewrite take_ge by lia.
    rewrite drop_app_ge by (rewrite length_map; lia).
    rewrite length_map, drop_replicate, map_app, length_app, <- app_assoc.
    do 3 f_equal. lia.
  - rewrite length_app, Nat2Z.inj_add. unfold u64. apply Z.mod_small. lia.
Qed.

Lemma stream_chunks_short (seed : Z) (chunks : list (list Z)) (b : list Z) :
  (length b + length (concat chunks) < 64)%nat ->
  stream_chunks (short_state seed b) chunks = Some (short_state seed (b ++ concat chunks)).
Proof.
  revert b. induction chunks as [|c chunks IH]; intros b Hroom.
  - simpl. rewrite app_nil_r. reflexivity.
  - simpl concat in *. rewrite length_app in Hroom.
    cbn [stream_chunks]. rewrite stream_short by lia.
    cbn [mbind option_bind]. rewrite IH by (rewrite length_app; lia).
    rewrite app_assoc. reflexivity.
Qed.

(** ** The blocks of a short input, loaded and buffered *)

Lemma map_u8_bytes (l : list Z) : Forall is_u8 (map u8 l).
Proof. induction l as [|x l IH]; simpl; constructor; [apply u8_range | exact IH]. Qed.

Lemma load_u64_encode (start : list Z) (offset : nat) :
  (offset + 8 <= length start)%nat ->
  le_encode 8 (load_u64 start (Z.of_nat offset)) = map u8 (take 8 (drop offset start)).
Proof.
  intros Hroom. unfold load_u64. rewrite Nat2Z.id.
  assert (Hlen : length (map u8 (take 8 (drop offset start))) = 8%nat).
  { rewrite length_map, length_take, length_drop. lia. }
  rewrite <- Hlen at 1. apply le_encode_decode, map_u8_bytes.
Qed.

Lemma load_u128_spec (start : list Z) (offset : nat) :
  (offset + 16 <= length start)%nat -> Z.of_nat offset + 8 < 2 ^ 64 ->
  load_u128 start (Z.of_nat offset) = map u8 (take 16 (drop offset start)).
Proof.
  intros Hroom Hfits. unfold load_u128.
  rewrite set_u64s_low_high.
  replace (u64 (Z.of_nat offset + 8)) with (Z.of_nat (offset + 8))
    by (unfold u64; rewrite Z.mod_small; lia).
  rewrite !load_u64_encode by lia.
  rewrite <- map_app. f_equal.
  rewrite <- drop_drop.
  apply (take_take_drop (drop offset start) 8 8).
Qed.

Lemma load_u128_at (start : list Z) (offset : Z) :
  0 <= offset -> (Z.to_nat offset + 16 <= length start)%nat -> offset + 8 < 2 ^ 64 ->
  load_u128 start offset = map u8 (take 16 (drop (Z.to_nat offset) start)).
Proof.
  intros Hpos Hroom Hfits. rewrite <- (Z2Nat.id offset) at 1 by exact Hpos.
  apply load_u128_spec; lia.
Qed.

Lemma load_u128_ok (start : list Z) (offset : Z) : bytes_ok 16 (load_u128 start offset).
Proof.
  unfold load_u128. rewrite set_u64s_low_high.
  apply (bytes_ok_app 8 8); apply bytes_ok_encode.
Qed.

Lemma data_vec_spec (start : list Z) (n : nat) :
  (n <= 16)%nat -> (n <= length start)%nat ->
  fold_left (fun data_vec i => set_u8s data_vec i (u8s start i)) (seq 0 n) (replicate 16 0)
  = map u8 (take n start) ++ replicate (16 - n) 0.
Proof.
  induction n as [|n IH]; intros Hn Hlen.
  - reflexivity.
  - rewrite seq_S, fold_left_app, IH by lia. simpl fold_left.
    unfold set_u8s, u8s.
    destruct (lookup_lt_is_Some_2 start n ltac:(lia)) as [y Hy].
    rewrite (nth_lookup_Some _ _ _ _ Hy), (take_S_r _ _ _ Hy).
    rewrite insert_app_r_alt by (rewrite length_map, length_take; lia).
    rewrite length_map, length_take_le, Nat.sub_diag by lia.
    replace (16 - n)%nat with (S (16 - S n)) by lia.
    rewrite map_app, <- app_assoc. reflexivity.
Qed.

(** Block [k] of the buffer of a short state when the input covers it. *)
Lemma short_full_block (b : list Z) (k : nat) :
  (length b < 64)%nat -> (16 * k + 16 <= length b)%nat ->
  vecs (map u8 b ++ replicate (64 - length b) 0) k = map u8 (take 16 (drop (16 * k) b)).
Proof.
  intros Hshort Hk. unfold vecs.
  rewrite drop_app_le by (rewrite length_map; lia).
  rewrite take_app_le by (rewrite length_drop, length_map; lia).
  rewrite skipn_map, firstn_map. reflexivity.
Qed.

(** Block [k] of the buffer of a short state when the input ends in it. *)
Lemma short_last_block (b : list Z) (k : nat) :
  (length b < 64)%nat -> (16 * k <= length b <= 16 * k + 16)%nat -> (k < 4)%nat ->
  vecs (map u8 b ++ replicate (64 - length b) 0) k
  = map u8 (drop (16 * k) b) ++ replicate (16 * k + 16 - length b) 0.
Proof.
  intros Hshort Hk Hk4. unfold vecs.
  rewrite drop_app_le by (rewrite length_map; lia).
  rewrite take_app_ge by (rewrite length_drop, length_map; lia).
  rewrite length_drop, length_map, take_replicate, skipn_map.
  do 2 f_equal. lia.
Qed.

(** The last block of the one-shot hash: loaded from sixteen bytes before the
    end and shifted down to its place. *)
Lemma shifted_last_block (b : list Z) (k : nat) :
  (16 * k < length b <= 16 * k + 16)%nat -> (1 <= k < 4)%nat ->
  _sz_hash_shift_in_register_serial
    (load_u128 b (u64 (Z.of_nat (length b) - 16)))
    (u64 (Z.of_nat (16 * k + 16) - Z.of_nat (length b)))
  = map u8 (drop (16 * k) b) ++ replicate (16 * k + 16 - length b) 0.
Proof.
  intros Hk Hk4.
  replace (u64 (Z.of_nat (length b) - 16)) with (Z.of_nat (length b - 16))
    by (unfold u64; rewrite Z.mod_small; lia).
  replace (u64 (Z.of_nat (16 * k + 16) - Z.of_nat (length b)))
    with (Z.of_nat (16 * k + 16 - length b))
    by (unfold u64; rewrite Z.mod_small; lia).
  rewrite shift_in_register_spec by (try apply load_u128_ok; lia).
  rewrite load_u128_spec by lia.
  f_equal. rewrite skipn_map. f_equal.
  rewrite skipn_firstn_comm, drop_drop.
  rewrite take_ge by (rewrite length_drop; lia).
  f_equal. lia.
Qed.

(** ** Streaming and hashing agree below 64 bytes *)

(** Folding the state that has streamed fewer than 64 bytes is hashing
    them in one shot. *)
Lemma fold_short (seed : Z) (b : list Z) :
  (length b < 64)%nat ->
  Some (sz_hash_state_fold_serial (short_state seed b))
  = sz_hash_serial b (Z.of_nat (length b)) seed.
Proof.
  intros Hshort. unfold sz_hash_state_fold_serial, sz_hash_serial.
  cbn [short_state ins_length aes sum key ins].
  change {| min_aes := vecs (aes (sz_hash_state_init_serial seed)) 0;
            min_sum := vecs (sum (sz_hash_state_init_serial seed)) 0;
            min_key := key (sz_hash_state_init_serial seed) |}
    with (_sz_hash_minimal_init_serial seed).
  replace (Z.of_nat (length b) >=? 64) with false by lia.
  destruct (Z.of_nat (length b) <=? 16) eqn:H16.
  { change (set_u64s (set_u64s (uninitialized 16) 1 0) 0 0) with (replicate 16 0).
    rewrite Nat2Z.id, data_vec_spec by lia.
    rewrite short_last_block by lia.
    rewrite take_ge, drop_0 by lia. reflexivity. }
  destruct (Z.of_nat (length b) <=? 32) eqn:H32.
  { rewrite (short_full_block b 0), (short_last_block b 1) by lia.
    change 32 with (Z.of_nat (16 * 1 + 16)).
    rewrite (shifted_last_block b 1) by lia.
    rewrite (load_u128_at b 0) by lia. reflexivity. }
  destruct (Z.of_nat (length b) <=? 48) eqn:H48.
  { rewrite (short_full_block b 0), (short_full_block b 1), (short_last_block b 2) by lia.
    change 48 with (Z.of_nat (16 * 2 + 16)).
    rewrite (shifted_last_block b 2) by lia.
    rewrite (load_u128_at b 0), (load_u128_at b 16) by lia. reflexivity. }
  replace (Z.of_nat (length b) <=? 64) with true by lia.
  rewrite (short_full_block b 0), (short_full_block b 1), (short_full_block b 2),
    (short_last_block b 3) by lia.
  change 64 with (Z.of_nat (16 * 3 + 16)).
  rewrite (shifted_last_block b 3) by lia.
  rewrite (load_u128_at b 0), (load_u128_at b 16), (load_u128_at b 32) by lia.
  reflexivity.
Qed.

(** Below 64 bytes, every partition of the input streams to the digest of
    the one-shot hash. *)
Lemma streaming_agrees_below_64 (seed : Z) (chunks : list (list Z)) :
  (length (concat chunks) < 64)%nat ->
  streamed_digest seed chunks
  = sz_hash_serial (concat chunks) (Z.of_nat (length (concat chunks))) seed.
Proof.
  intros Hshort. unfold streamed_digest.
  rewrite init_is_short, stream_chunks_short by (simpl; lia).
  cbn [mbind option_bind app]. apply fold_short. exact Hshort.
Qed.

(** ** Streaming, byte by byte *)

Lemma stream_step_block (v : stream_vars) :
  0 < sv_length v ->
  let to_copy := Z.min (sv_length v) (64 - ins_length (sv_state v) mod 64) in
  sv_state (stream_step v) = block_step (sv_state v) (Z.to_nat to_copy) (sv_text v).
Proof.
  intros Hpending. cbv zeta.
  pose proof (Z.mod_pos_bound (ins_length (sv_state v)) 64 ltac:(lia)) as Hp.
  unfold stream_step, block_step. rewrite min_of_two_spec.
  set (to_copy := Z.min _ _). rewrite Z2Nat.id by lia.
  cbn [ins set_ins_length].
  destruct (copy_into_ins _ _ _ _) as [filled text']. cbn [fst].
  destruct (_ =? 64); reflexivity.
Qed.

Lemma absorb_byte_block (state : sz_hash_state_t) (x : Z) :
  absorb_byte state x = block_step state 1 [x].
Proof.
  unfold absorb_byte.
  pose proof (Z.mod_pos_bound (ins_length state) 64 ltac:(lia)) as Hp.
  rewrite stream_step_block by (cbn; lia). cbn [sv_state sv_length sv_text].
  rewrite Z.min_l by lia. reflexivity.
Qed.

Lemma progress_after (state : sz_hash_state_t) (c : Z) :
  0 <= c -> ins_length state mod 64 + c < 64 ->
  u64 (ins_length state + c) mod 64 = ins_length state mod 64 + c.
Proof.
  intros Hc Hroom.
  pose proof (Z.mod_pos_bound (ins_length state) 64 ltac:(lia)) as Hp.
  unfold u64. change (2 ^ 64) with (64 * 2 ^ 58).
  rewrite Z.rem_mul_r by lia. rewrite Z.mul_comm, Z.mod_add by lia.
  rewrite Z.mod_mod by lia. rewrite <- Zplus_mod_idemp_l. apply Z.mod_small. lia.
Qed.

Lemma block_step_first (state : sz_hash_state_t) (c : nat) (x : Z) (text : list Z) :
  ins_length state mod 64 + Z.of_nat (S (S c)) <= 64 ->
  block_step state (S (S c)) (x :: text) = block_step (block_step state 1 [x]) (S c) text.
Proof.
  intros Hroom.
  pose proof (Z.mod_pos_bound (ins_length state) 64 ltac:(lia)) as Hp.
  unfold block_step at 3. change (Z.of_nat 1) with 1.
  replace (ins_length state mod 64 + 1 =? 64) with false by lia.
  unfold block_step. cbn [ins ins_length set_ins set_ins_length].
  rewrite progress_after by lia.
  replace (Z.to_nat (ins_length state mod 64 + 1))
    with (S (Z.to_nat (ins_length state mod 64))) by lia.
  replace (u64 (u64 (ins_length state + 1) + Z.of_nat (S c)))
    with (u64 (ins_length state + Z.of_nat (S (S c))))
    by (unfold u64; rewrite Zplus_mod_idemp_l; f_equal; lia).
  replace (ins_length state mod 64 + 1 + Z.of_nat (S c) =? 64)
    with (ins_length state mod 64 + Z.of_nat (S (S c)) =? 64) by (f_equal; lia).
  reflexivity.
Qed.

Lemma block_step_bytewise (c : nat) (state : sz_hash_state_t) (text : list Z) :
  ins_length state mod 64 + Z.of_nat (S c) <= 64 -> (S c <= length text)%nat ->
  block_step state (S c) text = fold_left absorb_byte (take (S c) text) state.
Proof.
  revert state text. induction c as [|c IH]; intros state text Hroom Hlen;
    (destruct text as [|x text]; [simpl in Hlen; lia|]).
  - simpl. rewrite absorb_byte_block. reflexivity.
  - rewrite block_step_first by exact Hroom.
    change (take (S (S c)) (x :: text)) with (x :: take (S c) text).
    cbn [fold_left]. rewrite absorb_byte_block.
    pose proof (Z.mod_pos_bound (ins_length state) 64 ltac:(lia)) as Hp.
    apply IH; [|simpl in Hlen; lia].
    unfold block_step. change (Z.of_nat 1) with 1.
    replace (ins_length state mod 64 + 1 =? 64) with false by lia.
    cbn [ins_length set_ins set_ins_length]. rewrite progress_after by lia. lia.
Qed.

(** The streaming loop absorbs its bytes one by one. *)
Lemma stream_loop_bytewise (state : sz_hash_state_t) (text : list Z) (n : Z) :
  is_u64 n -> n <= Z.of_nat (length text) ->
  stream_loop state text n
  = Some {| sv_state := fold_left absorb_byte (take (Z.to_nat n) text) state;
            sv_text := drop (Z.to_nat n) text;
            sv_length := 0 |}.
Proof.
  intros Hn Hroom. unfold is_u64 in Hn. unfold stream_loop.
  destruct (while_rule
    (fun v => 0 <= sv_length v <= n /\
              sv_state v = fold_left absorb_byte
                             (take (Z.to_nat (n - sv_length v)) text) state /\
              sv_text v = drop (Z.to_nat (n - sv_length v)) text)
    (fun v => Z.to_nat (sv_length v))
    (fun v => negb (sv_length v =? 0)) stream_step) with
    (fuel := Z.to_nat n)
    (s := {| sv_state := state; sv_text := text; sv_length := n |})
    as (v & Hrun & (Hrange & Hstate & Htext) & Hexit).
  - intros v (Hrange & Hstate & Htext) Hcond.
    pose proof (Z.mod_pos_bound (ins_length (sv_state v)) 64 ltac:(lia)) as Hp.
    pose proof (stream_step_block v ltac:(lia)) as Hblock. cbv zeta in Hblock.
    assert (Hlen' : sv_length (stream_step v)
                    = sv_length v - Z.min (sv_length v) (64 - ins_length (sv_state v) mod 64)).
    { unfold stream_step. rewrite min_of_two_spec. cbn [ins set_ins_length].
      destruct (copy_into_ins _ _ _ _). cbn [sv_length]. apply Z.mod_small. lia. }
    assert (Htext' : sv_text (stream_step v)
                     = drop (Z.to_nat (Z.min (sv_length v)
                                             (64 - ins_length (sv_state v) mod 64)))
                            (sv_text v)).
    { unfold stream_step. rewrite min_of_two_spec. cbn [ins set_ins_length].
      rewrite <- copy_into_ins_text
        with (ins := ins (sv_state v)) (p := Z.to_nat (ins_length (sv_state v) mod 64)).
      destruct (copy_into_ins _ _ _ _). reflexivity. }
    set (c := Z.min _ _) in *.
    assert (Hc : 0 < c <= sv_length v /\ ins_length (sv_state v) mod 64 + c <= 64) by lia.
    clearbody c. split; [|lia]. split; [lia|].
    rewrite Hlen', Htext', Hblock, Htext.
    destruct (Z.to_nat c) as [|c'] eqn:Ec; [lia|].
    rewrite block_step_bytewise by (rewrite ?length_drop; lia).
    rewrite Hstate, <- fold_left_app, take_take_drop, drop_drop.
    replace (Z.to_nat (n - (sv_length v - c))) with (Z.to_nat (n - sv_length v) + S c')%nat
      by lia.
    split; reflexivity.
  - cbn [sv_state sv_text sv_length]. rewrite Z.sub_diag. simpl.
    split; [lia|]. split; reflexivity.
  - cbn [sv_length]. lia.
  - rewrite Hrun. f_equal. destruct v as [st tx len]. cbn [sv_state sv_text sv_length] in *.
    assert (Hz : len = 0) by lia. subst len. rewrite Z.sub_0_r in *.
    rewrite Hstate, Htext. reflexivity.
Qed.

Lemma stream_bytewise (state : sz_hash_state_t) (text : list Z) (n : Z) :
  is_u64 n -> n <= Z.of_nat (length text) ->
  sz_hash_state_stream_serial state text n
  = Some (fold_left absorb_byte (take (Z.to_nat n) text) state).
Proof.
  intros Hn Hroom. unfold sz_hash_state_stream_serial.
  rewrite stream_loop_bytewise by assumption. reflexivity.
Qed.

(** Streaming chunks absorbs the bytes of their concatenation: the state
    does not depend on where the chunks are cut. *)
Lemma stream_chunks_bytewise (chunks : list (list Z)) (state : sz_hash_state_t) :
  Forall (fun c => Z.of_nat (length c) < 2 ^ 64) chunks ->
  stream_chunks state chunks = Some (fold_left absorb_byte (concat chunks) state).
Proof.
  intros Hfit. revert state. induction Hfit as [|c chunks Hc _ IH]; intros state.
  - reflexivity.
  - cbn [stream_chunks concat]. rewrite stream_bytewise by (unfold is_u64; lia).
    cbn [mbind option_bind]. rewrite Nat2Z.id, take_ge by lia.
    rewrite IH, fold_left_app. reflexivity.
Qed.

Lemma streaming_ignores_the_partition (chunks chunks' : list (list Z)) (seed : Z) :
  Forall (fun c => Z.of_nat (length c) < 2 ^ 64) chunks ->
  Forall (fun c => Z.of_nat (length c) < 2 ^ 64) chunks' ->
  concat chunks = concat chunks' ->
  streamed_digest seed chunks = streamed_digest seed chunks'.
Proof.
  intros H H' Hcat. unfold streamed_digest.
  rewrite !stream_chunks_bytewise by assumption. rewrite Hcat. reflexivity.
Qed.

(** ** What the comparison of states does hold *)

(** States that agree on [aes], [sum] and [key] do compare equal. *)
Lemma state_equal_of_agreement (lhs rhs : sz_hash_state_t) :
  aes lhs = aes rhs -> sum lhs = sum rhs -> key lhs = key rhs ->
  sz_hash_state_equal lhs rhs = true.
Proof.
  intros Haes Hsum Hkey. unfold sz_hash_state_equal.
  rewrite Haes, Hsum, Hkey, !Z.eqb_refl. reflexivity.
Qed.

Lemma u64_mod_64 (x : Z) : u64 x mod 64 = x mod 64.
Proof.
  unfold u64. change (2 ^ 64) with (64 * 2 ^ 58).
  rewrite Z.rem_mul_r by lia. rewrite Z.mul_comm, Z.mod_add by lia.
  apply Z.mod_mod. lia.
Qed.

Lemma absorb_byte_length (state : sz_hash_state_t) (x : Z) :
  ins_length (absorb_byte state x) = u64 (ins_length state + 1).
Proof.
  rewrite absorb_byte_block. unfold block_step.
  destruct (_ =? 64); reflexivity.
Qed.

Lemma absorb_bytes_length (l : list Z) (state : sz_hash_state_t) :
  u64 (ins_length (fold_left absorb_byte l state))
  = u64 (ins_length state + Z.of_nat (length l)).
Proof.
  revert state. induction l as [|x l IH]; intros state.
  - simpl. rewrite Z.add_0_r. reflexivity.
  - cbn [fold_left length]. rewrite IH, absorb_byte_length.
    unfold u64. rewrite Zplus_mod_idemp_l.
    f_equal. lia.
Qed.

Lemma absorb_byte_pending (state : sz_hash_state_t) (x : Z) :
  ins_length state mod 64 + 1 < 64 ->
  aes (absorb_byte state x) = aes state /\
  sum (absorb_byte state x) = sum state /\
  key (absorb_byte state x) = key state.
Proof.
  intros Hroom. rewrite absorb_byte_block. unfold block_step.
  change (Z.of_nat 1) with 1.
  replace (ins_length state mod 64 + 1 =? 64) with false by lia.
  repeat split.
Qed.

(** Bytes that do not complete a block leave the accumulators and the key
    as they were. *)
Lemma absorb_pending (tail : list Z) (state : sz_hash_state_t) :
  ins_length state mod 64 + Z.of_nat (length tail) < 64 ->
  aes (fold_left absorb_byte tail state) = aes state /\
  sum (fold_left absorb_byte tail state) = sum state /\
  key (fold_left absorb_byte tail state) = key state.
Proof.
  revert state. induction tail as [|x tail IH]; intros state Hroom.
  - repeat split.
  - cbn [fold_left]. simpl length in Hroom.
    pose proof (Z.mod_pos_bound (ins_length state) 64 ltac:(lia)) as Hp.
    destruct (absorb_byte_pending state x ltac:(lia)) as (Ea & Es & Ek).
    destruct (IH (absorb_byte state x)) as (Ea' & Es' & Ek').
    { rewrite absorb_byte_length, u64_mod_64.
      rewrite <- Zplus_mod_idemp_l, Z.mod_small by lia. lia. }
    rewrite Ea', Es', Ek'. auto.
Qed.

(** Two states that have streamed, after the same seed, the same bytes up
    to a multiple of 64 and then pending tails of fewer than 64 bytes each
    compare equal, however the bytes were cut into chunks. *)
Lemma state_equal_despite_pending_tails (seed : Z) (blocks tail tail' : list Z)
    (chunks chunks' : list (list Z)) :
  Forall (fun c => Z.of_nat (length c) < 2 ^ 64) chunks ->
  Forall (fun c => Z.of_nat (length c) < 2 ^ 64) chunks' ->
  concat chunks = blocks ++ tail -> concat chunks' = blocks ++ tail' ->
  Z.of_nat (length blocks) mod 64 = 0 ->
  (length tail < 64)%nat -> (length tail' < 64)%nat ->
  exists lhs rhs,
    stream_chunks (sz_hash_state_init_serial seed) chunks = Some lhs /\
    stream_chunks (sz_hash_state_init_serial seed) chunks' = Some rhs /\
    sz_hash_state_equal lhs rhs = true.
Proof.
  intros Hfit Hfit' Hcat Hcat' Hblocks Htail Htail'.
  rewrite !stream_chunks_bytewise by assumption.
  rewrite Hcat, Hcat', !fold_left_app.
  set (state := fold_left absorb_byte blocks (sz_hash_state_init_serial seed)).
  assert (Hp : ins_length state mod 64 = 0).
  { unfold state. rewrite <- u64_mod_64, absorb_bytes_length, u64_mod_64.
    exact Hblocks. }
  destruct (absorb_pending tail state ltac:(lia)) as (Ea & Es & Ek).
  destruct (absorb_pending tail' state ltac:(lia)) as (Ea' & Es' & Ek').
  eexists. eexists. split; [reflexivity|]. split; [reflexivity|].
  apply state_equal_of_agreement; congruence.
Qed.

(** ** The one-shot hash answers *)

Lemma hash_block_step_length (start : list Z) (state : sz_hash_state_t) :
  ins_length (hash_block_step start state) = u64 (ins_length state + 64).
Proof. reflexivity. Qed.

(** The loops of the long path end: the one-shot hash answers for every
    length that a buffer can have. *)
Lemma hash_serial_total (start : list Z) (n seed : Z) :
  0 <= n < 2 ^ 64 - 64 -> exists digest, sz_hash_serial start n seed = Some digest.
Proof.
  intros Hn. unfold sz_hash_serial.
  destruct (n <=? 16); [eexists; reflexivity|].
  destruct (n <=? 32); [eexists; reflexivity|].
  destruct (n <=? 48); [eexists; reflexivity|].
  destruct (n <=? 64); [eexists; reflexivity|].
  destruct (while_rule
    (fun state => 0 <= ins_length state <= n)
    (fun state => Z.to_nat (n - ins_length state))
    (fun state => u64 (ins_length state + 64) <=? n) (hash_block_step start)) with
    (fuel := Z.to_nat n) (s := sz_hash_state_init_serial seed)
    as (state & Hrun & Hstate & _).
  - intros state Hstate Hcond. rewrite hash_block_step_length.
    unfold u64 in *. rewrite Z.mod_small in * by lia. lia.
  - cbn [sz_hash_state_init_serial ins_length]. lia.
  - cbn [sz_hash_state_init_serial ins_length]. lia.
  - rewrite Hrun. cbn [mbind option_bind].
    destruct (ins_length state <? n); [|eexists; reflexivity].
    destruct (while_rule
      (fun s : nat * sz_hash_state_t => 0 <= ins_length (snd s) <= n)
      (fun s => Z.to_nat (n - ins_length (snd s)))
      (fun s => ins_length (snd s) <? n) (hash_tail_step start)) with
      (fuel := Z.to_nat n) (s := (O, set_ins state (zero_u64s (ins state))))
      as ([i state'] & Hrun' & _ & _).
    + intros [i state'] Hs Hcond. cbn [hash_tail_step snd ins_length set_ins set_ins_length] in *.
      unfold u64. rewrite Z.mod_small by lia. lia.
    + cbn [snd set_ins ins_length]. exact Hstate.
    + cbn [snd set_ins ins_length]. lia.
    + rewrite Hrun'. eexists. reflexivity.
Qed.

(** ** The pending tail of a long stream *)

Lemma absorb_bytes_length_exact (l : list Z) (state : sz_hash_state_t) :
  l <> [] ->
  ins_length (fold_left absorb_byte l state)
  = u64 (ins_length state + Z.of_nat (length l)).
Proof.
  revert state. induction l as [|x l IH]; intros state Hne; [congruence|].
  cbn [fold_left length]. destruct l as [|y l].
  - simpl. apply absorb_byte_length.
  - rewrite IH by discriminate. rewrite absorb_byte_length.
    unfold u64. rewrite Zplus_mod_idemp_l. f_equal. lia.
Qed.

Lemma finalize_depends_on (lhs rhs : sz_hash_state_t) :
  aes lhs = aes rhs -> sum lhs = sum rhs -> key lhs = key rhs ->
  ins_length lhs = ins_length rhs ->
  _sz_hash_state_finalize_serial lhs = _sz_hash_state_finalize_serial rhs.
Proof.
  intros Ha Hs Hk Hl. unfold _sz_hash_state_finalize_serial.
  rewrite Ha, Hs, Hk, Hl. reflexivity.
Qed.

(** From 64 bytes on, the streamed digest does not see the bytes that are
    pending in the input buffer, only how many they are. *)
Lemma streamed_digest_ignores_pending_tail (seed : Z) (blocks tail tail' : list Z) :
  (64 <= length blocks)%nat -> Z.of_nat (length blocks) mod 64 = 0 ->
  length tail = length tail' -> (length tail < 64)%nat ->
  Z.of_nat (length blocks + length tail) < 2 ^ 64 ->
  streamed_digest seed [blocks ++ tail] = streamed_digest seed [blocks ++ tail'].
Proof.
  intros Hlong Hfull Hsame Hshort Hfits. unfold streamed_digest.
  rewrite !stream_chunks_bytewise
    by (repeat constructor; rewrite length_app; lia).
  cbn [mbind option_bind concat]. rewrite !app_nil_r, !fold_left_app. f_equal.
  set (state := fold_left absorb_byte blocks (sz_hash_state_init_serial seed)).
  assert (Hblocks : blocks <> []) by (destruct blocks; [simpl in Hlong; lia | discriminate]).
  assert (Hlen : ins_length state = Z.of_nat (length blocks)).
  { unfold state. rewrite absorb_bytes_length_exact by exact Hblocks.
    cbn [sz_hash_state_init_serial ins_length]. apply Z.mod_small. lia. }
  assert (Hp : ins_length state mod 64 = 0) by (rewrite Hlen; exact Hfull).
  destruct (absorb_pending tail state ltac:(lia)) as (Ea & Es & Ek).
  destruct (absorb_pending tail' state ltac:(lia)) as (Ea' & Es' & Ek').
  assert (Hl : forall t, length t = length tail ->
                         ins_length (fold_left absorb_byte t state)
                         = Z.of_nat (length blocks + length tail)).
  { intros t Ht. destruct t as [|x t].
    - simpl in *. rewrite <- Ht, Nat.add_0_r. exact Hlen.
    - rewrite absorb_bytes_length_exact by discriminate.
      rewrite Hlen, Ht. unfold u64. rewrite Z.mod_small by lia. lia. }
  unfold sz_hash_state_fold_serial.
  rewrite !Hl by congruence.
  assert (H64 : 64 <= Z.of_nat (length blocks + length tail)) by lia.
  set (total := Z.of_nat (length blocks + length tail)) in *. clearbody total.
  destruct (total >=? 64) eqn:Hwide; [|lia].
  apply finalize_depends_on; try congruence.
  rewrite !Hl by congruence. reflexivity.
Qed.

(** ** Streaming and hashing agree on whole blocks beyond the first *)

Lemma set_u64s_all (v : list Z) (f : nat -> Z) :
  length v = 64%nat ->
  fold_left (fun ins i => set_u64s ins i (f i)) (seq 0 8) v
  = concat (map (fun i => le_encode 8 (f i)) (seq 0 8)).
Proof.
  intros H. do 65 (destruct v as [|? v]; try discriminate H). reflexivity.
Qed.

Lemma windows_of_eight (w : list Z) :
  (64 <= length w)%nat ->
  concat (map (fun i => map u8 (take 8 (drop (8 * i) w))) (seq 0 8)) = map u8 (take 64 w).
Proof.
  intros H. do 64 (destruct w as [|? w]; [simpl in H; lia|]). reflexivity.
Qed.

(** One turn of the main loop of the one-shot hash: the next 64 bytes are
    put in the buffer, absorbed, and counted. *)
Lemma hash_block_step_spec (start : list Z) (state : sz_hash_state_t) (offset : nat) :
  length (ins state) = 64%nat -> ins_length state = Z.of_nat offset ->
  (offset + 64 <= length start)%nat -> Z.of_nat offset + 64 < 2 ^ 64 ->
  hash_block_step start state
  = set_ins_length
      (_sz_hash_state_update_serial
         (set_ins state (map u8 (take 64 (drop offset start)))))
      (Z.of_nat offset + 64).
Proof.
  intros Hlen Hoff Hroom Hfits. unfold hash_block_step.
  rewrite (set_u64s_all (ins state)
             (fun i => load_u64 start (u64 (ins_length state + 8 * Z.of_nat i))))
    by exact Hlen.
  assert (Hblock : concat (map (fun i => le_encode 8
                      (load_u64 start (u64 (ins_length state + 8 * Z.of_nat i)))) (seq 0 8))
                   = map u8 (take 64 (drop offset start))).
  { rewrite <- windows_of_eight by (rewrite length_drop; lia).
    f_equal. apply map_ext_in. intros i Hi. apply in_seq in Hi.
    rewrite Hoff.
    replace (u64 (Z.of_nat offset + 8 * Z.of_nat i)) with (Z.of_nat (offset + 8 * i))
      by (unfold u64; rewrite Z.mod_small; lia).
    rewrite load_u64_encode by lia. rewrite drop_drop. reflexivity. }
  rewrite Hblock. cbn [ins_length _sz_hash_state_update_serial update_lane set_sum set_aes set_ins].
  rewrite Hoff. unfold u64. rewrite Z.mod_small by lia. reflexivity.
Qed.

(** Absorbing 64 bytes from the start of a block, one by one, puts them in
    the buffer, absorbs the block, counts it and clears the buffer. *)
Lemma absorb_block (state : sz_hash_state_t) (block : list Z) :
  length block = 64%nat -> length (ins state) = 64%nat -> ins_length state mod 64 = 0 ->
  fold_left absorb_byte block state
  = set_ins
      (set_ins_length
         (_sz_hash_state_update_serial (set_ins state (map u8 block)))
         (u64 (ins_length state + 64)))
      (replicate 64 0).
Proof.
  intros Hblock Hlen Hp.
  rewrite <- (take_ge block 64) at 1 by lia.
  rewrite <- block_step_bytewise by (rewrite ?Hp, ?Hblock; lia).
  unfold block_step. rewrite Hp. change (0 + Z.of_nat 64 =? 64) with true. cbv iota.
  rewrite copy_into_ins_eq by lia.
  change (Z.to_nat 0) with O. rewrite take_0, app_nil_l.
  rewrite drop_ge by lia. rewrite app_nil_r, take_ge by lia.
  cbn [ins _sz_hash_state_update_serial update_lane set_sum set_aes set_ins set_ins_length].
  rewrite zero_u64s_zero by (rewrite length_map; exact Hblock).
  reflexivity.
Qed.

Lemma absorb_byte_ins (state : sz_hash_state_t) (x : Z) :
  length (ins state) = 64%nat -> length (ins (absorb_byte state x)) = 64%nat.
Proof.
  intros Hlen. rewrite absorb_byte_block. unfold block_step.
  destruct (_ =? 64);
    cbn [ins _sz_hash_state_update_serial update_lane set_sum set_aes set_ins set_ins_length].
  - rewrite zero_u64s_zero by (rewrite copy_into_ins_length; exact Hlen). reflexivity.
  - rewrite copy_into_ins_length. exact Hlen.
Qed.

Lemma absorb_bytes_ins (l : list Z) (state : sz_hash_state_t) :
  length (ins state) = 64%nat -> length (ins (fold_left absorb_byte l state)) = 64%nat.
Proof.
  revert state. induction l as [|x l IH]; intros state Hlen; [exact Hlen|].
  cbn [fold_left]. apply IH, absorb_byte_ins, Hlen.
Qed.

Lemma same_after_block (lhs rhs : sz_hash_state_t) (block cleared : list Z) (n m : Z) :
  same_but_ins lhs rhs -> n = m ->
  same_but_ins
    (set_ins_length (_sz_hash_state_update_serial (set_ins lhs block)) n)
    (set_ins (set_ins_length (_sz_hash_state_update_serial (set_ins rhs block)) m) cleared).
Proof.
  intros (Ha & Hs & Hk & Hl) ->. unfold same_but_ins.
  cbn [_sz_hash_state_update_serial update_lane set_sum set_aes set_ins set_ins_length
       aes sum key ins ins_length].
  rewrite Ha, Hs, Hk. auto.
Qed.

Lemma hash_whole_blocks (seed : Z) (b : list Z) :
  (64 < length b)%nat -> Z.of_nat (length b) mod 64 = 0 ->
  Z.of_nat (length b) < 2 ^ 64 - 64 ->
  streamed_digest seed [b] = sz_hash_serial b (Z.of_nat (length b)) seed.
Proof.
  intros Hlong Hwhole Hfits. unfold streamed_digest.
  rewrite stream_chunks_bytewise by (repeat constructor; lia).
  cbn [concat mbind option_bind]. rewrite app_nil_r.
  unfold sz_hash_serial.
  replace (Z.of_nat (length b) <=? 16) with false by lia.
  replace (Z.of_nat (length b) <=? 32) with false by lia.
  replace (Z.of_nat (length b) <=? 48) with false by lia.
  replace (Z.of_nat (length b) <=? 64) with false by lia.
  set (n := Z.of_nat (length b)) in *.
  destruct (while_rule
    (fun state => exists j : nat,
       ins_length state = 64 * Z.of_nat j /\ 64 * Z.of_nat j <= n /\
       length (ins state) = 64%nat /\
       same_but_ins state
         (fold_left absorb_byte (take (64 * j) b) (sz_hash_state_init_serial seed)))
    (fun state => Z.to_nat (n - ins_length state))
    (fun state => u64 (ins_length state + 64) <=? n) (hash_block_step b)) with
    (fuel := Z.to_nat n) (s := sz_hash_state_init_serial seed)
    as (state & Hrun & (j & Hcount & Hrange & Hins & Hsame) & Hexit).
  - intros state (j & Hcount & Hrange & Hins & Hsame) Hcond.
    unfold u64 in Hcond. rewrite Z.mod_small in Hcond by lia.
    rewrite (hash_block_step_spec b state (64 * j)) by (unfold n in *; lia).
    split; [|cbn [ins_length set_ins_length]; lia].
    exists (S j).
    split; [cbn [ins_length set_ins_length]; lia|]. split; [lia|].
    split; [cbn [ins _sz_hash_state_update_serial update_lane set_sum set_aes set_ins
                 set_ins_length];
            rewrite length_map, length_take, length_drop; unfold n in *; lia|].
    replace (64 * S j)%nat with (64 * j + 64)%nat by lia.
    rewrite <- take_take_drop, fold_left_app.
    set (streamed := fold_left absorb_byte (take (64 * j) b) _) in *.
    assert (Hp : ins_length streamed mod 64 = 0).
    { destruct Hsame as (_ & _ & _ & <-). rewrite Hcount.
      rewrite Z.mul_comm. apply Z.mod_mul. lia. }
    assert (Hlen : length (ins streamed) = 64%nat).
    { unfold streamed. apply absorb_bytes_ins.
      cbn [sz_hash_state_init_serial ins]. rewrite zero_u64s_zero by reflexivity.
      reflexivity. }
    rewrite absorb_block by (rewrite ?length_take, ?length_drop; unfold n in *; lia || assumption).
    apply same_after_block; [exact Hsame|].
    destruct Hsame as (_ & _ & _ & <-). rewrite Hcount.
    unfold u64. rewrite Z.mod_small by lia. lia.
  - exists O. cbn [sz_hash_state_init_serial ins_length ins]. 
    split; [reflexivity|]. split; [lia|].
    split; [rewrite zero_u64s_zero by reflexivity; reflexivity|].
    repeat split.
  - cbn [sz_hash_state_init_serial ins_length]. lia.
  - rewrite Hrun. cbn [mbind option_bind].
    unfold u64 in Hexit. rewrite Z.mod_small in Hexit by lia.
    assert (Hn : ins_length state = n).
    { unfold n in *. Z.div_mod_to_equations. lia. }
    replace (ins_length state <? n) with false by lia.
    f_equal. assert (Hj : (64 * j)%nat = length b) by (unfold n in *; lia).
    rewrite Hj, take_ge in Hsame by lia.
    destruct Hsame as (Ha & Hs & Hk & Hl).
    unfold sz_hash_state_fold_serial. rewrite <- Hl, Hn.
    replace (n >=? 64) with true by lia.
    symmetry. apply finalize_depends_on; assumption.
Qed.

(** On whole blocks beyond the first, every partition of the input streams
    to the digest of the one-shot hash. *)
Lemma streaming_agrees_on_whole_blocks (seed : Z) (chunks : list (list Z)) :
  Forall (fun c => Z.of_nat (length c) < 2 ^ 64) chunks ->
  (64 < length (concat chunks))%nat -> Z.of_nat (length (concat chunks)) mod 64 = 0 ->
  Z.of_nat (length (concat chunks)) < 2 ^ 64 - 64 ->
  streamed_digest seed chunks
  = sz_hash_serial (concat chunks) (Z.of_nat (length (concat chunks))) seed.
Proof.
  intros Hfit Hlong Hwhole Hfits.
  rewrite (streaming_ignores_the_partition chunks [concat chunks])
    by (try assumption; try (cbn [concat]; rewrite app_nil_r; reflexivity);
        repeat constructor; lia).
  apply hash_whole_blocks; assumption.
Qed.

(** ** The fold, in the specification's terms *)

Lemma state_okb_spec (state : sz_hash_state_t) :
  state_okb state = true -> state_ok state.
Proof.
  unfold state_okb, state_ok. rewrite !andb_true_iff.
  intros [[[Ha Hs] Hi] Hk].
  split; [|split; [|split]]; apply bytes_okb_spec; assumption.
Qed.

(** The lanes of a wide vector are blocks. *)
Lemma vecs_ok (v : list Z) (k : nat) :
  bytes_ok 64 v -> (k < 4)%nat -> bytes_ok 16 (vecs v k).
Proof. intros Hv Hk. unfold vecs.
  apply (bytes_ok_take (64 - 16 * k)); [apply bytes_ok_drop; exact Hv | lia]. Qed.

Lemma round_ok (S K : list Z) :
  bytes_ok 16 S -> bytes_ok 16 K -> bytes_ok 16 (AES.round S K).
Proof. intros HS HK. rewrite <- aesenc_refines by assumption. apply aesenc_ok. Qed.

Lemma add_lanes_ok (a b : list Z) : bytes_ok 16 (add_lanes a b).
Proof. unfold add_lanes, block_of_lanes. apply bytes_ok_encode. Qed.

Create HintDb blocks.
#[local] Hint Resolve vecs_ok round_ok aesenc_ok add_lanes_ok : blocks.

(** The finalization of the minimal state is that of the specification. *)
Lemma minimal_finalize_refines (state : _sz_hash_minimal_t) (n : Z) :
  minimal_ok state ->
  _sz_hash_minimal_finalize_serial state n = spec_minimal_finalize state n.
Proof.
  intros (Haes & Hsum & Hkey).
  unfold _sz_hash_minimal_finalize_serial, spec_minimal_finalize.
  rewrite set_lane0_add by exact Hkey.
  rewrite u64s_lane0 by apply aesenc_ok.
  rewrite (aesenc_refines (min_sum state) (min_aes state)) by assumption.
  repeat rewrite aesenc_refines by (auto 8 with blocks).
  reflexivity.
Qed.

(** The finalization of the wide state is the tree of rounds of the
    specification. *)
Lemma wide_finalize_refines (state : sz_hash_state_t) :
  state_ok state ->
  _sz_hash_state_finalize_serial state = spec_wide_finalize state.
Proof.
  intros (Haes & Hsum & _ & Hkey).
  unfold _sz_hash_state_finalize_serial, spec_wide_finalize.
  rewrite set_lane0_add by exact Hkey.
  rewrite u64s_lane0 by apply aesenc_ok.
  rewrite !(aesenc_refines (vecs (sum state) _) (vecs (aes state) _))
    by (apply vecs_ok; (assumption || lia)).
  repeat rewrite aesenc_refines by (auto 8 with blocks).
  reflexivity.
Qed.

(** The shuffle by the additive mask is the permutation of the
    specification. *)
Lemma shuffle_refines (v : list Z) :
  bytes_ok 16 v ->
  _sz_emulate_shuffle_epi8_serial v _sz_hash_u8x16x4_shuffle = spec_shuffle v.
Proof.
  intros [Hlen Hv].
  do 17 (destruct v as [|? v]; try discriminate Hlen).
  repeat match goal with
         | H : Forall _ (_ :: _) |- _ => apply Forall_cons_1 in H; destruct H as [? H]
         end.
  unfold _sz_emulate_shuffle_epi8_serial, spec_shuffle, set_u8s, u8s.
  cbn -[u8]. rewrite !u8_id by assumption. reflexivity.
Qed.

Lemma shuffle_ok (v : list Z) :
  bytes_ok 16 (_sz_emulate_shuffle_epi8_serial v _sz_hash_u8x16x4_shuffle).
Proof.
  unfold _sz_emulate_shuffle_epi8_serial, set_u8s.
  split; [reflexivity|]. cbn -[u8 u8s]. repeat constructor; apply u8_range.
Qed.

Lemma add_u64s_lanes (sum block : list Z) :
  bytes_ok 16 sum -> bytes_ok 16 block -> add_u64s sum block = add_lanes sum block.
Proof.
  intros Hsum Hblock. unfold add_u64s, add_lanes.
  pose proof Hsum as [Hlen _].
  rewrite set_u64s_0_lane1, set_u64s_both by exact Hlen.
  rewrite !u64s_lane0, !u64s_lane1 by assumption.
  rewrite block_of_lanes_split, !u64_encode. reflexivity.
Qed.

(** The update of the minimal state is that of the specification. *)
Lemma minimal_update_refines (state : _sz_hash_minimal_t) (block : list Z) :
  minimal_ok state -> bytes_ok 16 block ->
  _sz_hash_minimal_update_serial state block = spec_minimal_update state block.
Proof.
  intros (Haes & Hsum & Hkey) Hblock.
  unfold _sz_hash_minimal_update_serial, spec_minimal_update.
  rewrite aesenc_refines by assumption.
  rewrite add_u64s_lanes by (try apply shuffle_ok; assumption).
  rewrite shuffle_refines by assumption. reflexivity.
Qed.

Lemma spec_minimal_update_ok (state : _sz_hash_minimal_t) (block : list Z) :
  minimal_ok state -> bytes_ok 16 block -> minimal_ok (spec_minimal_update state block).
Proof.
  intros (Haes & Hsum & Hkey) Hblock. unfold minimal_ok, spec_minimal_update. simpl.
  auto with blocks.
Qed.

Lemma minimal_updates_refine (buffer : list Z) (indices : list nat) :
  bytes_ok 64 buffer -> Forall (fun k => (k < 4)%nat) indices ->
  forall state, minimal_ok state ->
    fold_left (fun m k => _sz_hash_minimal_update_serial m (vecs buffer k)) indices state
    = fold_left (fun m k => spec_minimal_update m (vecs buffer k)) indices state
    /\ minimal_ok (fold_left (fun m k => spec_minimal_update m (vecs buffer k))
                             indices state).
Proof.
  intros Hbuffer Hindices. induction Hindices as [|k indices Hk _ IH]; intros state Hstate.
  - split; [reflexivity | exact Hstate].
  - simpl. rewrite minimal_update_refines by auto with blocks.
    apply IH. apply spec_minimal_update_ok; auto with blocks.
Qed.

(** The branches of the fold apply one to four updates of the minimal state,
    or the wide finalization. *)
Lemma fold_dispatch (state : sz_hash_state_t) :
  sz_hash_state_fold_serial state = spec_fold state.
Proof.
  unfold sz_hash_state_fold_serial, spec_fold.
  destruct (ins_length state >=? 64) eqn:Hwide.
  - replace (ins_length state <? 64) with false by lia. reflexivity.
  - replace (ins_length state <? 64) with true by lia.
    destruct (ins_length state <=? 16) eqn:H16.
    { replace (Z.to_nat (Z.max 1 ((ins_length state + 15) / 16))) with 1%nat
        by (Z.div_mod_to_equations; lia).
      reflexivity. }
    destruct (ins_length state <=? 32) eqn:H32.
    { replace (Z.to_nat (Z.max 1 ((ins_length state + 15) / 16))) with 2%nat
        by (Z.div_mod_to_equations; lia).
      reflexivity. }
    destruct (ins_length state <=? 48) eqn:H48.
    { replace (Z.to_nat (Z.max 1 ((ins_length state + 15) / 16))) with 3%nat
        by (Z.div_mod_to_equations; lia).
      reflexivity. }
    replace (Z.to_nat (Z.max 1 ((ins_length state + 15) / 16))) with 4%nat
      by (Z.div_mod_to_equations; lia).
    reflexivity.
Qed.

(** On well-formed states every step of the fold is the specification's. *)
Lemma spec_fold_digest (state : sz_hash_state_t) :
  state_ok state -> spec_fold state = spec_digest state.
Proof.
  intros Hstate. pose proof Hstate as (Haes & Hsum & Hins & Hkey).
  unfold spec_fold, spec_digest.
  destruct (ins_length state <? 64) eqn:Hshort.
  - set (blocks := Z.to_nat (Z.max 1 ((ins_length state + 15) / 16))).
    assert (Hblocks : (blocks <= 4)%nat) by (unfold blocks; Z.div_mod_to_equations; lia).
    set (minimal := {| min_aes := vecs (aes state) 0; min_sum := vecs (sum state) 0;
                       min_key := key state |}).
    assert (Hminimal : minimal_ok minimal).
    { unfold minimal_ok, minimal. simpl.
      split; [|split]; try apply vecs_ok; (assumption || lia). }
    assert (Hindices : Forall (fun k => (k < 4)%nat) (seq 0 blocks)).
    { apply Forall_forall. intros k Hk. apply elem_of_seq in Hk. lia. }
    destruct (minimal_updates_refine (ins state) (seq 0 blocks) Hins Hindices
                                     minimal Hminimal) as [-> Hok].
    apply minimal_finalize_refines. exact Hok.
  - apply wide_finalize_refines. exact Hstate.
Qed.

(** * The claims *)

(** C1 (streaming equivalence), which the code breaks: the header asks for
    "the same output ... in both single-shot and incremental modes", yet on
    64 zero bytes with seed 0 the one-shot hash takes the minimal path while
    the streamed state, having absorbed one full block, is finalized as a wide
    state; and on 65 zero bytes the streamed digest never absorbs the pending
    65th byte, which the one-shot hash does absorb.  The digests differ in
    both cases, and the streamed digest of 64 zero bytes followed by a byte
    does not depend on that byte, while the one-shot hash does.  What holds
    is above: [streaming_agrees_below_64], [streaming_agrees_on_whole_blocks],
    [streaming_ignores_the_partition] and, for the defect from 64 bytes on,
    [streamed_digest_ignores_pending_tail]. *)
Theorem streaming_diverges_from_one_shot :
  sz_hash_serial (replicate 64 0) 64 0 = Some 17614507747689389452 /\
  streamed_digest 0 [replicate 64 0] = Some 14076872432197639772 /\
  sz_hash_serial (replicate 65 0) 65 0 = Some 9102999603815065102 /\
  streamed_digest 0 [replicate 65 0] = Some 14076872433622854454 /\
  streamed_digest 0 [replicate 64 0 ++ [1]] = streamed_digest 0 [replicate 64 0 ++ [2]] /\
  sz_hash_serial (replicate 64 0 ++ [1]) 65 0 <> sz_hash_serial (replicate 64 0 ++ [2]) 65 0.
Proof.
  split; [vm_compute; reflexivity|].
  split; [vm_compute; reflexivity|].
  split; [vm_compute; reflexivity|].
  split; [vm_compute; reflexivity|].
  split; [vm_compute; reflexivity|].
  vm_compute. discriminate.
Qed.

(** C2: the serial AES round primitive is the standard AES encryption round:
    for every state [S] and round key [K] of sixteen bytes,
    [_sz_emulate_aesenc_si128_serial S K] is
    [MixColumns(SubBytes(ShiftRows(S))) xor K] in the byte order of FIPS 197,
    with the S-box defined from the inverse in GF(2^8) and the affine map, and
    MixColumns from the doubling [x * 2 = (x << 1) xor ((x >> 7) * 0x1b)]. *)
Theorem aesenc_is_the_standard_round (S K : list Z) :
  bytes_ok 16 S -> bytes_ok 16 K ->
  _sz_emulate_aesenc_si128_serial S K = AES.round S K.
Proof. apply aesenc_refines. Qed.

Lemma aesenc_is_the_standard_round_witness :
  bytes_ok 16 fips_state /\ bytes_ok 16 fips_round_key /\
  _sz_emulate_aesenc_si128_serial fips_state fips_round_key
  = AES.round fips_state fips_round_key.
Proof.
  assert (HS : bytes_ok 16 fips_state)
    by (apply bytes_okb_spec; vm_compute; reflexivity).
  assert (HK : bytes_ok 16 fips_round_key)
    by (apply bytes_okb_spec; vm_compute; reflexivity).
  split; [exact HS|]. split; [exact HK|].
  apply (aesenc_is_the_standard_round fips_state fips_round_key HS HK).
Defined.

(** C3: the finalization of the minimal state follows the specification's
    formula: for every minimal state of well-formed blocks and every length,
    [_sz_hash_minimal_finalize_serial] returns the low 64 bits of
    [AES_round(AES_round(m, k'), m)], where [k'] is the key with the length
    added, modulo [2^64], into its low lane only, and
    [m = AES_round(sum, aes)]. *)
Theorem minimal_finalize_follows_the_formula (state : _sz_hash_minimal_t) (n : Z) :
  bytes_ok 16 (min_aes state) -> bytes_ok 16 (min_sum state) ->
  bytes_ok 16 (min_key state) ->
  _sz_hash_minimal_finalize_serial state n = spec_minimal_finalize state n.
Proof.
  intros Haes Hsum Hkey. apply minimal_finalize_refines.
  split; [exact Haes|]. split; [exact Hsum | exact Hkey].
Qed.

Lemma minimal_finalize_follows_the_formula_witness :
  bytes_ok 16 (min_aes (_sz_hash_minimal_init_serial 42)) /\
  bytes_ok 16 (min_sum (_sz_hash_minimal_init_serial 42)) /\
  bytes_ok 16 (min_key (_sz_hash_minimal_init_serial 42)) /\
  _sz_hash_minimal_finalize_serial (_sz_hash_minimal_init_serial 42) 5
  = spec_minimal_finalize (_sz_hash_minimal_init_serial 42) 5.
Proof.
  assert (Haes : bytes_ok 16 (min_aes (_sz_hash_minimal_init_serial 42)))
    by (apply bytes_okb_spec; vm_compute; reflexivity).
  assert (Hsum : bytes_ok 16 (min_sum (_sz_hash_minimal_init_serial 42)))
    by (apply bytes_okb_spec; vm_compute; reflexivity).
  assert (Hkey : bytes_ok 16 (min_key (_sz_hash_minimal_init_serial 42)))
    by (apply bytes_okb_spec; vm_compute; reflexivity).
  split; [exact Haes|]. split; [exact Hsum|]. split; [exact Hkey|].
  apply (minimal_finalize_follows_the_formula (_sz_hash_minimal_init_serial 42) 5
           Haes Hsum Hkey).
Defined.

(** C4: the fold-to-minimal rule: below 64 bytes [sz_hash_state_fold_serial]
    builds a minimal state from lane 0 of [aes], lane 0 of [sum] and the
    unchanged key, applies [ceil(ins_length / 16)] minimal updates, at least
    one, on the successive 16-byte blocks of the input buffer, and finalizes it
    with [ins_length]; from 64 bytes on it applies the wide finalization.  On
    well-formed states these updates and both finalizations are the
    specification's: rounds of AES, the additive shuffle, lane-wise sums, and
    the tree of rounds over the four lanes. *)
Theorem fold_follows_the_minimal_rule (state : sz_hash_state_t) :
  sz_hash_state_fold_serial state = spec_fold state /\
  (state_ok state -> sz_hash_state_fold_serial state = spec_digest state).
Proof.
  split.
  - apply fold_dispatch.
  - intros Hstate. rewrite fold_dispatch. apply spec_fold_digest. exact Hstate.
Qed.

Lemma fold_follows_the_minimal_rule_witness :
  state_ok streamed_abc /\
  sz_hash_state_fold_serial streamed_abc = spec_fold streamed_abc /\
  sz_hash_state_fold_serial streamed_abc = spec_digest streamed_abc.
Proof.
  assert (Hstate : state_ok streamed_abc)
    by (apply state_okb_spec; vm_compute; reflexivity).
  split; [exact Hstate|].
  destruct (fold_follows_the_minimal_rule streamed_abc) as [Hrule Hdigest].
  split; [exact Hrule | exact (Hdigest Hstate)].
Defined.

(** C5: the output formula of the generator: for every length [total] and
    every nonce, over a buffer of at least [total] bytes, [sz_generate_serial]
    ends having advanced by [total] bytes, and the byte at every position
    [j < total] is byte [j mod 16] of [AES_round(I, K)] for the block index
    [i = j / 16], where both lanes of [I] are [nonce + i] modulo [2^64] and
    [K = (nonce xor pi[2 (i mod 4)], nonce xor pi[2 (i mod 4) + 1])]; so the
    last block gives only its first [total mod 16] bytes when that is not 0. *)
Theorem generate_output_formula (memory : list Z) (total nonce : Z) (j : nat) :
  is_u64 total -> (Z.to_nat total <= length memory)%nat -> (j < Z.to_nat total)%nat ->
  exists text',
    sz_generate_serial (pointer_to memory) total nonce = Some text' /\
    position text' = Z.to_nat total /\
    u8s (buffer text') j = u8s (spec_generate_block nonce (Z.of_nat j / 16)) (j mod 16).
Proof.
  intros Htotal Hroom Hj.
  destruct (generate_spec memory total nonce Htotal)
    as (text' & Hrun & Hpos & _ & _ & _ & Hbytes).
  exists text'. split; [exact Hrun|]. split; [exact Hpos|].
  rewrite <- generated_block_refines. apply Hbytes; lia.
Qed.

Lemma generate_output_formula_witness :
  is_u64 35 /\ (Z.to_nat 35 <= length (replicate 40 7))%nat /\ (33 < Z.to_nat 35)%nat /\
  exists text',
    sz_generate_serial (pointer_to (replicate 40 7)) 35 5 = Some text' /\
    position text' = Z.to_nat 35 /\
    u8s (buffer text') 33 = u8s (spec_generate_block 5 (Z.of_nat 33 / 16)) (33 mod 16).
Proof.
  assert (H1 : is_u64 35) by (unfold is_u64; lia).
  assert (H2 : (Z.to_nat 35 <= length (replicate 40 7))%nat) by (simpl; lia).
  assert (H3 : (33 < Z.to_nat 35)%nat) by (simpl; lia).
  split; [exact H1|]. split; [exact H2|]. split; [exact H3|].
  apply (generate_output_formula (replicate 40 7) 35 5 33 H1 H2 H3).
Defined.

(** C6: the checksum is exact: for every byte string [b] shorter than [2^56]
    bytes, [sz_bytesum_serial] returns the mathematical sum of the byte values
    of [b], without overflow, which is also what a naive 64-bit accumulator
    returns; and the checksum of ["hi"] is 209. *)
Theorem bytesum_is_the_exact_sum (b : list Z) :
  Forall is_u8 b -> Z.of_nat (length b) < 2 ^ 56 ->
  sz_bytesum_serial b (Z.of_nat (length b)) = byte_total b /\
  sz_bytesum_serial b (Z.of_nat (length b)) = naive_accumulator 0 b /\
  sz_bytesum_serial [104; 105] 2 = 209.
Proof.
  intros Hb Hlen.
  assert (Hnaive : sz_bytesum_serial b (Z.of_nat (length b)) = naive_accumulator 0 b).
  { unfold sz_bytesum_serial. rewrite Nat2Z.id, take_ge by lia.
    apply bytesum_naive. exact Hb. }
  split; [|split; [exact Hnaive | reflexivity]].
  rewrite Hnaive, naive_exact by (assumption || lia). lia.
Qed.

Lemma bytesum_is_the_exact_sum_witness :
  Forall is_u8 [104; 105] /\ Z.of_nat (length [104; 105]) < 2 ^ 56 /\
  sz_bytesum_serial [104; 105] (Z.of_nat (length [104; 105])) = byte_total [104; 105] /\
  sz_bytesum_serial [104; 105] (Z.of_nat (length [104; 105])) = naive_accumulator 0 [104; 105] /\
  sz_bytesum_serial [104; 105] 2 = 209.
Proof.
  assert (H1 : Forall is_u8 [104; 105]) by (repeat constructor; unfold is_u8; lia).
  assert (H2 : Z.of_nat (length [104; 105]) < 2 ^ 56) by (simpl; lia).
  split; [exact H1|]. split; [exact H2|].
  apply (bytesum_is_the_exact_sum [104; 105] H1 H2).
Defined.

(** C7 (state equality), which the code breaks: [sz_hash_state_equal] is
    documented to compare the state of two running hashes, the input buffer
    and its length apart, but it reads only [u64s[0..3]] of the eight 64-bit
    words of [aes] and of [sum].  After seed 0, the state that has streamed 64
    zero bytes and the state that has streamed 64 bytes of which byte 32 is 1
    differ in [aes] and in [sum], and fold to different digests, yet compare
    equal.  What holds is above: [state_equal_of_agreement] and
    [state_equal_despite_pending_tails]. *)
Theorem state_equal_misses_the_upper_lanes :
  sz_hash_state_stream_serial (sz_hash_state_init_serial 0) zero_block 64
  = Some streamed_zero_block /\
  sz_hash_state_stream_serial (sz_hash_state_init_serial 0) other_block 64
  = Some streamed_other_block /\
  sz_hash_state_equal streamed_zero_block streamed_other_block = true /\
  aes streamed_zero_block <> aes streamed_other_block /\
  sum streamed_zero_block <> sum streamed_other_block /\
  sz_hash_state_fold_serial streamed_zero_block
  <> sz_hash_state_fold_serial streamed_other_block.
Proof.
  split; [vm_compute; reflexivity|].
  split; [vm_compute; reflexivity|].
  split; [vm_compute; reflexivity|].
  split; [vm_compute; discriminate|].
  split; vm_compute; discriminate.
Qed.

(** C8: the invariant of the input buffer: in every state reached from
    [sz_hash_state_init_serial] by any sequence of calls of
    [sz_hash_state_stream_serial], the bytes of [ins] at the indices from
    [ins_length mod 64] to 63 are zero, and [ins_length] is the number of
    bytes streamed since initialization: that number modulo [2^64], the
    counter being 64 bits wide, hence that number itself as long as it fits. *)
Theorem ins_buffer_invariant (state : sz_hash_state_t) (total : Z) :
  reachable state total ->
  (forall i, (Z.to_nat (ins_length state mod 64) <= i < 64)%nat ->
             u8s (ins state) i = 0) /\
  ins_length state = total mod 2 ^ 64 /\
  (total < 2 ^ 64 -> ins_length state = total).
Proof.
  intros Hreach.
  destruct (reachable_invariant state total Hreach) as ((_ & _ & Hzero) & Hpos & Hcount).
  split; [exact Hzero|]. split; [exact Hcount|].
  intros Hfits. rewrite Hcount. apply Z.mod_small. lia.
Qed.

Lemma ins_buffer_invariant_witness :
  reachable streamed_abc (0 + 3) /\
  (forall i, (Z.to_nat (ins_length streamed_abc mod 64) <= i < 64)%nat ->
             u8s (ins streamed_abc) i = 0) /\
  ins_length streamed_abc = (0 + 3) mod 2 ^ 64 /\
  (0 + 3 < 2 ^ 64 -> ins_length streamed_abc = 0 + 3).
Proof.
  assert (Hreach : reachable streamed_abc (0 + 3)).
  { apply (reachable_stream (sz_hash_state_init_serial 42) streamed_abc 0 abc 3).
    - apply reachable_init.
    - unfold is_u64. lia.
    - simpl. lia.
    - vm_compute. reflexivity. }
  split; [exact Hreach|].
  apply (ins_buffer_invariant streamed_abc (0 + 3) Hreach).
Defined.

(** C9: streaming zero bytes is the identity: for every state and every text
    pointer, [sz_hash_state_stream_serial] with length 0 returns the state
    with every field as it was, and its loop ends at once with the pointer
    where it was, no byte having been read through it. *)
Theorem stream_nothing_is_the_identity (state : sz_hash_state_t) (text : list Z) :
  stream_loop state text 0
  = Some {| sv_state := state; sv_text := text; sv_length := 0 |} /\
  sz_hash_state_stream_serial state text 0 = Some state.
Proof. split; reflexivity. Qed.

(** C10: the generator writes what it is asked and no more: for every length
    [total] and nonce, the stores of [sz_generate_serial] go to the offsets
    [0], [1], ..., [total - 1], once each and in this order, so that no byte
    at an offset of [total] or more is written and the memory there is as it
    was; and for [total = 0] nothing is stored at all. *)
Theorem generate_writes_its_length (memory : list Z) (total nonce : Z) :
  is_u64 total ->
  exists text',
    sz_generate_serial (pointer_to memory) total nonce = Some text' /\
    written text' = seq 0 (Z.to_nat total) /\
    length (buffer text') = length memory /\
    (forall j, (Z.to_nat total <= j)%nat -> buffer text' !! j = memory !! j) /\
    (total = 0 -> text' = pointer_to memory).
Proof.
  intros Htotal.
  destruct (generate_spec memory total nonce Htotal)
    as (text' & Hrun & _ & Hwritten & Hsize & Hframe & _).
  exists text'. split; [exact Hrun|]. split; [exact Hwritten|].
  split; [exact Hsize|]. split; [exact Hframe|].
  intros ->. unfold sz_generate_serial in Hrun.
  rewrite while_false in Hrun by reflexivity.
  injection Hrun as <-. reflexivity.
Qed.

Lemma generate_writes_its_length_witness :
  is_u64 35 /\
  exists text',
    sz_generate_serial (pointer_to (replicate 40 7)) 35 5 = Some text' /\
    written text' = seq 0 (Z.to_nat 35) /\
    length (buffer text') = length (replicate 40 7) /\
    (forall j, (Z.to_nat 35 <= j)%nat -> buffer text' !! j = replicate 40 7 !! j) /\
    (35 = 0 -> text' = pointer_to (replicate 40 7)).
Proof.
  assert (H1 : is_u64 35) by (unfold is_u64; lia).
  split; [exact H1|].
  apply (generate_writes_its_length (replicate 40 7) 35 5 H1).
Defined.
